(** * TMDB batch pipeline: a shallow embedding of [tmdb_realtime_pg.py]

    The development follows the source file top to bottom:
    [parse_date_safe], [fetch_movies_batch], [save_to_csv],
    [save_batch_to_db] and [main].  The remote catalog, the mirror file
    and the relational store are explicit components of the state the
    functions thread through; exceptions are values of type [exn].

    Conventions.
    - Python [int] is [Z]; a JSON string is a [string] whose characters
      are code points below 256; a Python [float] is a binary64
      [float]; for a key read with [m.get(key)], JSON null and a
      missing key are both [None] of an [option].
    - [time.sleep] takes seconds; the trace records milliseconds
      (0.4 s = 400, 2 s = 2000). *)

From Stdlib Require Import ZArith String Ascii List Lia PrimFloat.
From stdpp Require Import gmap strings list pretty sorting.

Open Scope string_scope.
Open Scope list_scope.
Open Scope Z_scope.

(** ** Exceptions the pipeline can meet *)

Inductive exn : Type :=
| ValueError          (* strptime: no match, unconverted data, bad date *)
| TypeError           (* strptime(None, ...); map(str, None) *)
| HTTPStatus (code : Z)   (* raise Exception(f"HTTP {status_code}") *)
| RequestException    (* network error or timeout of http_session.get *)
| JSONDecodeError     (* response.json() on a body that is not JSON *)
| AttributeError      (* data.get on a JSON value that is not an object *)
| IntegrityError      (* primary key violated at flush *)
| DataError           (* value outside the column type at flush *)
| OperationalError.   (* store unreachable *)

Inductive result (A : Type) : Type :=
| Ok (a : A)
| Raise (e : exn).
Arguments Ok {A} a.
Arguments Raise {A} e.

(** ** Calendar dates, [datetime.strptime(s, "%Y-%m-%d").date()] *)

Record date : Type := Date { year : Z; month : Z; day : Z }.

Definition is_leap (y : Z) : bool :=
  (y mod 4 =? 0) && (negb (y mod 100 =? 0) || (y mod 400 =? 0)).

Definition days_in_month (y m : Z) : Z :=
  if m =? 2 then (if is_leap y then 29 else 28)
  else if (m =? 4) || (m =? 6) || (m =? 9) || (m =? 11) then 30
  else 31.

(** [datetime.date(y, m, d)] raises [ValueError] outside these bounds
    (MINYEAR = 1, MAXYEAR = 9999). *)
Definition valid_date (y m d : Z) : bool :=
  (1 <=? y) && (y <=? 9999) && (1 <=? m) && (m <=? 12) &&
  (1 <=? d) && (d <=? days_in_month y m).

(** [\d] on a character of a [string]: below code point 256 the
    decimal digits are [0] to [9].  In a Python [str], [\d] also
    matches the decimal digits of other scripts (and [int] reads
    them); a [string] holds none of those characters, so the
    statements about dates below are kept to what is true of them as
    well. *)
Definition is_digit (c : ascii) : bool :=
  (48 <=? nat_of_ascii c)%nat && (nat_of_ascii c <=? 57)%nat.

Definition digit_val (c : ascii) : Z := Z.of_nat (nat_of_ascii c) - 48.

(** [c] is in the character class [lo-hi] of decimal digits. *)
Definition in_class (lo hi : Z) (c : ascii) : bool :=
  is_digit c && (lo <=? digit_val c) && (digit_val c <=? hi).

(** The regular expression [_strptime] builds for ["%Y-%m-%d"] is
    [(?P<Y>\d\d\d\d)-(?P<m>1[0-2]|0[1-9]|[1-9])-(?P<d>3[0-1]|[1-2]\d|0[1-9]|[1-9]| [1-9])].
    Each piece below returns its matches in the order a backtracking
    matcher tries them: the value read and the rest of the input. *)

Definition re_Y (s : string) : list (Z * string) :=
  match s with
  | String a (String b (String c (String d r))) =>
      if is_digit a && is_digit b && is_digit c && is_digit d
      then [(1000 * digit_val a + 100 * digit_val b
             + 10 * digit_val c + digit_val d, r)]
      else []
  | _ => []
  end.

Definition re_lit (ch : ascii) (s : string) : list string :=
  match s with
  | String c r => if Ascii.eqb c ch then [r] else []
  | EmptyString => []
  end.

(** One alternative made of two characters, [c1] in [l1-h1] and [c2] in
    [l2-h2]; and one made of a single character. *)
Definition re_two (l1 h1 l2 h2 : Z) (s : string) : list (Z * string) :=
  match s with
  | String c1 (String c2 r) =>
      if in_class l1 h1 c1 && in_class l2 h2 c2
      then [(10 * digit_val c1 + digit_val c2, r)] else []
  | _ => []
  end.

Definition re_one (l h : Z) (s : string) : list (Z * string) :=
  match s with
  | String c r => if in_class l h c then [(digit_val c, r)] else []
  | EmptyString => []
  end.

Definition re_space_one (l h : Z) (s : string) : list (Z * string) :=
  match s with
  | String sp (String c r) =>
      if Ascii.eqb sp " " && in_class l h c then [(digit_val c, r)] else []
  | _ => []
  end.

Definition re_m (s : string) : list (Z * string) :=
  re_two 1 1 0 2 s ++ re_two 0 0 1 9 s ++ re_one 1 9 s.

Definition re_d (s : string) : list (Z * string) :=
  re_two 3 3 0 1 s ++ re_two 1 2 0 9 s ++ re_two 0 0 1 9 s
  ++ re_one 1 9 s ++ re_space_one 1 9 s.

(** All the ways the whole expression matches a prefix of [s], in the
    matcher's order; [re.match] returns the first. *)
Definition format_regex (s : string) : list (Z * Z * Z * string) :=
  '(y, s1) ← re_Y s;
  s2 ← re_lit "-" s1;
  '(m, s3) ← re_m s2;
  s4 ← re_lit "-" s3;
  '(d, s5) ← re_d s4;
  [(y, m, d, s5)].

(** [datetime.strptime(data_string, "%Y-%m-%d").date()].  A [None]
    argument raises [TypeError]; no match, unconverted data after the
    match, and a (year, month, day) that is no calendar date raise
    [ValueError]. *)
Definition strptime_date (data_string : option string) : result date :=
  match data_string with
  | None => Raise TypeError
  | Some s =>
      match format_regex s with
      | [] => Raise ValueError
      | (y, m, d, rest) :: _ =>
          match rest with
          | String _ _ => Raise ValueError
          | EmptyString =>
              if valid_date y m d then Ok (Date y m d) else Raise ValueError
          end
      end
  end.

(** [parse_date_safe]: the bare [except:] turns every exception into
    [None]. *)
Definition parse_date_safe (date_str : option string) : option date :=
  match strptime_date date_str with
  | Ok d => Some d
  | Raise _ => None
  end.

(** The strict rendering [date.isoformat()] gives: four digits, two
    digits, two digits. *)
Definition digit_char (n : Z) : ascii := ascii_of_nat (Z.to_nat (48 + n)).

Definition pad2 (n : Z) : string :=
  String (digit_char (n / 10)) (String (digit_char (n mod 10)) EmptyString).

Definition pad4 (n : Z) : string :=
  String (digit_char (n / 1000)) (String (digit_char (n / 100 mod 10))
    (pad2 (n mod 100))).

Definition isoformat (d : date) : string :=
  pad4 (year d) +:+ "-" +:+ pad2 (month d) +:+ "-" +:+ pad2 (day d).

(** The spellings of a month and of a day of the month that the
    pattern accepts besides the zero-padded one. *)
Definition unpadded (n : Z) : list string :=
  if n <? 10 then [String (digit_char n) EmptyString] else [].

Definition space_padded (n : Z) : list string :=
  if n <? 10 then [String " " (String (digit_char n) EmptyString)] else [].

Definition spellings (d : date) : list string :=
  ms ← pad2 (month d) :: unpadded (month d);
  ds ← pad2 (day d) :: unpadded (day d) ++ space_padded (day d);
  [pad4 (year d) +:+ "-" +:+ ms +:+ "-" +:+ ds].

(** ** The data model

    [CatalogItem] is one object of the [results] array, read with
    [m["id"]] and [m.get(key)]; the identifier is required by the
    interface, the other keys may be missing.  [genre_ids] is read
    with a default, [m.get("genre_ids", [])]: [item_genre_ids] is
    [None] when the key is missing and the array otherwise, as the
    interface types it.  An object that holds JSON null under that key
    is not a [CatalogItem]; [received], below, adds it for the mirror
    writer. *)

Record CatalogItem : Type := {
  item_id : Z;
  item_title : option string;
  item_overview : option string;
  item_release_date : option string;
  item_vote_average : option float;
  item_vote_count : option Z;
  item_popularity : option float;
  item_genre_ids : option (list Z)
}.

(** [m.get("genre_ids", [])] on a missing key or an array. *)
Definition get_genre_ids (m : CatalogItem) : list Z :=
  default [] (item_genre_ids m).

(** ** The remote catalog and the trace of effects

    [http_session.get] either raises or returns a response.  The
    catalog is a function of the page and of how many times that page
    has been requested before: within one run every page is requested
    by one retry loop only, so this covers every behaviour of the
    remote service a run can observe. *)

Inductive http_body : Type :=
| NotJson                                        (* response.json() raises *)
| JsonNotObject                                  (* data.get raises *)
| JsonObject (results : option (list CatalogItem)).  (* "results" may be missing *)

Inductive http_outcome : Type :=
| NetworkError
| Response (status_code : Z) (body : http_body).

Definition remote : Type := Z -> nat -> http_outcome.

Inductive message : Type :=
| Starting | Connected | Processing (page : Z)
| Fetching (page : Z)
| Retrying (page : Z) (retries : nat) (e : exn)
| Skipping (page : Z)
| Inserted (n : nat)
| Completed.

Inductive event : Type :=
| Print (msg : message)
| Get (page : Z)          (* http_session.get(url, timeout=10) *)
| Sleep (ms : Z)          (* time.sleep, in milliseconds *)
| Traceback (e : exn).    (* an exception left [main] *)

(** The body of the [try] up to [results]: the value of
    [data.get("results", [])] or the exception raised on the way. *)
Definition try_results (o : http_outcome) : result (list CatalogItem) :=
  match o with
  | NetworkError => Raise RequestException
  | Response status_code body =>
      if negb (status_code =? 200) then Raise (HTTPStatus status_code)
      else match body with
           | NotJson => Raise JSONDecodeError
           | JsonNotObject => Raise AttributeError
           | JsonObject results => Ok (default [] results)
           end
  end.

(** How the [while retries > 0: ... else: ...] statement of one page
    ends. *)
Inductive while_exit : Type :=
| Return_ (movies : list CatalogItem)   (* return movies *)
| Break_ (movies : list CatalogItem)    (* break, after movies.extend(results) *)
| Else_ (movies : list CatalogItem).    (* retries reached 0: the else clause *)

(** [attempt] counts the requests already made for [page]. *)
Fixpoint while_retries (srv : remote) (page : Z) (retries attempt : nat)
    (movies : list CatalogItem) : while_exit * list event :=
  match retries with
  | O => (Else_ movies, [Print (Skipping page)])
  | S retries' =>
      match try_results (srv page attempt) with
      | Ok [] => (Return_ movies, [Print (Fetching page); Get page])
      | Ok results =>
          (Break_ (movies ++ results),
           [Print (Fetching page); Get page; Sleep 400])
      | Raise e =>
          let '(x, evs) := while_retries srv page retries' (S attempt) movies in
          (x, [Print (Fetching page); Get page;
               Print (Retrying page retries' e); Sleep 2000] ++ evs)
      end
  end.

(** [for page in range(...)] with [retries = 3] at the top of each
    round. *)
Fixpoint for_pages (srv : remote) (pages : list Z)
    (movies : list CatalogItem) : list CatalogItem * list event :=
  match pages with
  | [] => (movies, [])
  | page :: pages' =>
      match while_retries srv page 3 0 movies with
      | (Return_ movies', evs) => (movies', evs)
      | (Break_ movies', evs) | (Else_ movies', evs) =>
          let '(r, evs') := for_pages srv pages' movies' in (r, evs ++ evs')
      end
  end.

(** [range(start, stop)] *)
Definition range (start stop : Z) : list Z := seqZ start (stop - start).

Definition fetch_movies_batch (srv : remote) (start_page pages_per_batch : Z)
    : list CatalogItem * list event :=
  for_pages srv (range start_page (start_page + pages_per_batch)) [].

(** ** The mirror file

    The file system maps a file name to the records written to the
    file, a record being the list of values handed to
    [writer.writerow]. *)

Inductive cell : Type :=
| CNone
| CInt (n : Z)
| CFloat (f : float)
| CStr (s : string).

Definition csv_row : Type := list cell.

Definition opt_cell {A} (f : A -> cell) (o : option A) : cell :=
  match o with Some a => f a | None => CNone end.

Definition header : csv_row :=
  [CStr "id"; CStr "title"; CStr "overview"; CStr "release_date";
   CStr "vote_average"; CStr "vote_count"; CStr "popularity"; CStr "genre_ids"].

(** [sep.join(parts)] *)
Fixpoint join (sep : string) (parts : list string) : string :=
  match parts with
  | [] => ""
  | [p] => p
  | p :: ps => p +:+ sep +:+ join sep ps
  end.

Definition movie_row (m : CatalogItem) : csv_row :=
  [CInt (item_id m);
   opt_cell CStr (item_title m);
   opt_cell CStr (item_overview m);
   opt_cell CStr (item_release_date m);
   opt_cell CFloat (item_vote_average m);
   opt_cell CInt (item_vote_count m);
   opt_cell CFloat (item_popularity m);
   CStr (join "," (map pretty (get_genre_ids m)))].

Definition filesystem : Type := gmap string (list csv_row).

Definition default_filename : string := "popular_movies.csv".

(** [save_to_csv]: [open(filename, "a")] creates a missing file and
    keeps the content of an existing one. *)
Definition save_to_csv (movies : list CatalogItem) (filename : string)
    (fs : filesystem) : filesystem :=
  let file_exists := bool_decide (is_Some (fs !! filename)) in
  let f := default [] (fs !! filename) in
  let f := if negb file_exists then f ++ [header] else f in
  let f := f ++ map movie_row movies in
  <[filename := f]> fs.

(** *** Objects whose [genre_ids] is null

    [m.get("genre_ids", [])] returns the default for a missing key
    only: on an object that holds JSON null under the key it returns
    None, and [map(str, None)] raises TypeError while the row is being
    built.  [received] is an object as it comes off the wire: a
    [CatalogItem], or one with null for [genre_ids] (its other keys as
    in [m]). *)
Inductive received : Type :=
| Typed (m : CatalogItem)
| NullGenreIds (m : CatalogItem).

(** The [for m in movies] loop of [save_to_csv] on received objects.
    The exception leaves the loop and the [with] block, which closes
    the file: the rows written before it stay. *)
Fixpoint write_rows (movies : list received) (f : list csv_row)
    : result unit * list csv_row :=
  match movies with
  | [] => (Ok tt, f)
  | Typed m :: rest => write_rows rest (f ++ [movie_row m])
  | NullGenreIds _ :: _ => (Raise TypeError, f)
  end.

Definition save_to_csv_received (movies : list received) (filename : string)
    (fs : filesystem) : result unit * filesystem :=
  let file_exists := bool_decide (is_Some (fs !! filename)) in
  let f := default [] (fs !! filename) in
  let f := if negb file_exists then f ++ [header] else f in
  let '(r, f) := write_rows movies f in
  (r, <[filename := f]> fs).

(** ** The relational store

    Three tables as the schema declares them: [movies] with primary key
    [id], [genres] with primary key [genre_id], and [movies_genres]
    with the composite primary key (movie_id, genre_id).  A table is
    the list of its rows in insertion order; the primary key and the
    column types are checked by [insert_row], as the database checks
    them on INSERT. *)

Record Genre : Type := {
  genre_id : Z;
  genre_name : option string
}.

Record Movie : Type := {
  id : Z;
  title : option string;
  overview : option string;
  release_date : option date;
  vote_average : option float;
  vote_count : option Z;
  popularity : option float
}.

Record Store : Type := {
  movies : list Movie;
  genres : list Genre;
  movies_genres : list (Z * Z)
}.

Record Database : Type := {
  reachable : bool;
  committed : Store
}.

(** [Integer] is a 32-bit column, [String(225)] holds at most 225
    characters.  The checks are those of the column types on ordinary
    values.  Three things the driver and the store do at the edge of
    them are outside the model: a NUL character in a text value is
    refused by the driver before the row is sent; a title longer than
    225 characters whose excess is spaces is cut to 225 and accepted;
    and a negative zero is stored as zero.  A row of the model is the
    row as the session holds it. *)
Definition fits_integer (n : Z) : bool :=
  (-2147483648 <=? n) && (n <=? 2147483647).

Definition fits_opt {A} (f : A -> bool) (o : option A) : bool :=
  match o with Some a => f a | None => true end.

Definition movie_types_ok (m : Movie) : bool :=
  fits_integer (id m)
  && fits_opt (fun t => Z.of_nat (String.length t) <=? 225) (title m)
  && fits_opt fits_integer (vote_count m).

Definition genre_types_ok (g : Genre) : bool := fits_integer (genre_id g).

Definition pair_types_ok (p : Z * Z) : bool :=
  fits_integer p.1 && fits_integer p.2.

Section Insert.
Context {R K : Type} `{EqDecision K}.
Variable key : R -> K.
Variable types_ok : R -> bool.

Definition insert_row (r : R) (t : list R) : result (list R) :=
  if negb (types_ok r) then Raise DataError
  else if bool_decide (key r ∈ map key t) then Raise IntegrityError
  else Ok (t ++ [r]).

(** The rows of one INSERT statement, in order; the first row that
    is refused raises. *)
Fixpoint insert_many (rows : list R) (t : list R) : result (list R) :=
  match rows with
  | [] => Ok t
  | r :: rows' =>
      match insert_row r t with
      | Ok t' => insert_many rows' t'
      | Raise e => Raise e
      end
  end.
End Insert.

(** ** The ORM session

    [engine] is the database behind the session; [tx] is what the
    session's transaction sees, the committed rows and the rows flushed
    so far; [identity_map] holds the persistent [Movie] objects by
    primary key; [new_genres] and [new_movies] are the pending objects
    in the order of [session.add], a movie together with its [genres]
    collection.

    What the model takes from the library:
    - [sessionmaker(bind=engine)] leaves autoflush on, so a statement
      that goes to the database flushes the pending objects first;
    - a pending object is not in the identity map, it enters it when it
      is flushed;
    - the [genres] collection of the relationship is a list, and a flush
      writes one [movies_genres] row per element;
    - the run is the only writer, so the transaction sees the committed
      rows and its own.
    The foreign keys of [movies_genres] are not checked: a row is
    written for a movie of the same flush and a genre of the cache,
    both in their tables by then. *)

Record Session : Type := {
  engine : Database;
  tx : Store;
  identity_map : gmap Z Movie;
  new_genres : list Genre;
  new_movies : list (Movie * list Genre)
}.

(** State and exceptions: a computation runs on a session and either
    returns or raises, leaving the session as it was at that point. *)
Definition M (A : Type) : Type := Session -> result A * Session.

Definition ret {A} (a : A) : M A := fun s => (Ok a, s).

Definition bind {A B} (m : M A) (k : A -> M B) : M B :=
  fun s => match m s with
           | (Ok a, s') => k a s'
           | (Raise e, s') => (Raise e, s')
           end.

Definition raise {A} (e : exn) : M A := fun s => (Raise e, s).

Notation "x <- m ;; k" := (bind m (fun x => k))
  (at level 100, m at next level, right associativity).
Notation "m ;;; k" := (bind m (fun _ => k))
  (at level 100, right associativity).

(** [Session()]: no connection is made yet. *)
Definition Session_ (db : Database) : Session :=
  {| engine := db; tx := committed db; identity_map := ∅;
     new_genres := []; new_movies := [] |}.

(** The rows of [movies_genres] a pending movie brings: one per element
    of its [genres] collection.  The list fixes an order for them; the
    mapper emits the rows of one flush in an order of its own and a
    table keeps none, so the order of the rows within a table of the
    model carries no meaning. *)
Definition assoc_rows (p : Movie * list Genre) : list (Z * Z) :=
  map (fun g => (id p.1, genre_id g)) p.2.

(** [session.flush()]: INSERT the pending genres, the pending movies,
    then the association rows; the flushed movies become persistent.
    A refused row raises and the transaction is left as it was. *)
Definition flush : M unit := fun s =>
  match insert_many genre_id genre_types_ok (new_genres s) (genres (tx s)) with
  | Raise e => (Raise e, s)
  | Ok gs =>
  match insert_many id movie_types_ok (map fst (new_movies s)) (movies (tx s)) with
  | Raise e => (Raise e, s)
  | Ok ms =>
  match insert_many (fun p : Z * Z => p) pair_types_ok
          (flat_map assoc_rows (new_movies s)) (movies_genres (tx s)) with
  | Raise e => (Raise e, s)
  | Ok mgs =>
      (Ok tt,
       {| engine := engine s;
          tx := {| movies := ms; genres := gs; movies_genres := mgs |};
          identity_map :=
            foldl (fun im p => <[id p.1 := p.1]> im) (identity_map s) (new_movies s);
          new_genres := []; new_movies := [] |})
  end end end.

(** The first statement of a session needs the connection. *)
Definition connect : M unit := fun s =>
  if reachable (engine s) then ret tt s else raise OperationalError s.

(** [session.query(Genre).all()] *)
Definition query_all_genres : M (list Genre) :=
  connect ;;; flush ;;; fun s => (Ok (genres (tx s)), s).

(** [session.get(Movie, ident)]: the identity map answers when it holds
    the key; otherwise the pending objects are flushed (autoflush) and
    the row is selected by primary key. *)
Definition session_get (ident : Z) : M (option Movie) := fun s =>
  match identity_map s !! ident with
  | Some m => (Ok (Some m), s)
  | None =>
      (connect ;;; flush ;;; fun s' =>
        match List.find (fun r => bool_decide (id r = ident)) (movies (tx s')) with
        | Some m =>
            (Ok (Some m),
             {| engine := engine s'; tx := tx s';
                identity_map := <[ident := m]> (identity_map s');
                new_genres := new_genres s'; new_movies := new_movies s' |})
        | None => (Ok None, s')
        end) s
  end.

(** [session.add(genre)] and [session.add(movie)] *)
Definition session_add_genre (g : Genre) : M unit := fun s =>
  (Ok tt, {| engine := engine s; tx := tx s; identity_map := identity_map s;
             new_genres := new_genres s ++ [g]; new_movies := new_movies s |}).

Definition session_add_movie (movie : Movie) (movie_genres : list Genre) : M unit :=
  fun s =>
  (Ok tt, {| engine := engine s; tx := tx s; identity_map := identity_map s;
             new_genres := new_genres s;
             new_movies := new_movies s ++ [(movie, movie_genres)] |}).

(** [session.commit()]: flush, then make the transaction's rows the
    committed ones. *)
Definition session_commit : M unit :=
  connect ;;; flush ;;; fun s =>
    (Ok tt, {| engine := {| reachable := reachable (engine s); committed := tx s |};
               tx := tx s; identity_map := identity_map s;
               new_genres := new_genres s; new_movies := new_movies s |}).

(** ** [save_batch_to_db] *)

(** [{g.genre_id: g for g in all}]: a later row replaces an earlier one
    with the same key. *)
Definition genre_dict (all : list Genre) : gmap Z Genre :=
  foldl (fun d g => <[genre_id g := g]> d) ∅ all.

Definition new_genre (gid : Z) : Genre :=
  {| genre_id := gid; genre_name := Some ("Genre " +:+ pretty gid) |}.

(** [Movie(id=m["id"], title=m.get("title"), ...)] *)
Definition new_movie (m : CatalogItem) : Movie :=
  {| id := item_id m;
     title := item_title m;
     overview := item_overview m;
     release_date := parse_date_safe (item_release_date m);
     vote_average := item_vote_average m;
     vote_count := item_vote_count m;
     popularity := item_popularity m |}.

(** [for gid in m.get("genre_ids", []): ...], with the cache and the
    movie's [genres] collection as loop state. *)
Fixpoint for_genre_ids (gids : list Z) (genre_cache : gmap Z Genre)
    (movie_genres : list Genre) : M (gmap Z Genre * list Genre) :=
  match gids with
  | [] => ret (genre_cache, movie_genres)
  | gid :: gids' =>
      match genre_cache !! gid with
      | None =>
          let g := new_genre gid in
          session_add_genre g ;;;
          for_genre_ids gids' (<[gid := g]> genre_cache) (movie_genres ++ [g])
      | Some g =>
          for_genre_ids gids' genre_cache (movie_genres ++ [g])
      end
  end.

(** [for m in movies: ...] *)
Fixpoint for_movies (movies : list CatalogItem) (genre_cache : gmap Z Genre)
    : M (gmap Z Genre) :=
  match movies with
  | [] => ret genre_cache
  | m :: movies' =>
      found <- session_get (item_id m) ;;
      match found with
      | Some _ => for_movies movies' genre_cache
      | None =>
          let movie := new_movie m in
          r <- for_genre_ids (get_genre_ids m) genre_cache [] ;;
          session_add_movie movie r.2 ;;;
          for_movies movies' r.1
      end
  end.

Definition save_batch_to_db_session (movies : list CatalogItem) : M unit :=
  all <- query_all_genres ;;
  for_movies movies (genre_dict all) ;;;
  session_commit.

(** The database after the call is the one behind the session: what was
    committed.  An exception leaves the function before
    [session.commit()]; the open transaction is rolled back with the
    connection.  [session.close()] gives the connection back and
    changes no row. *)
Definition save_batch_to_db (movies : list CatalogItem) (db : Database)
    : result unit * Database * list event :=
  match save_batch_to_db_session movies (Session_ db) with
  | (Ok _, s) => (Ok tt, engine s, [Print (Inserted (length movies))])
  | (Raise e, s) => (Raise e, engine s, [])
  end.

(** ** [main] *)

Record World : Type := {
  fs : filesystem;
  db : Database
}.

Definition MAX_PAGES : Z := 100.
Definition PAGES_PER_BATCH : Z := 5.

(** One round of [while page <= MAX_PAGES] and what becomes of the
    loop: it goes on from the next cursor, it ends (the condition is
    false, or [break]), or an exception leaves it. *)
Inductive round_exit : Type :=
| Continue_ (page : Z)
| Stop_
| Raised_ (e : exn).

Definition while_body (srv : remote) (max_pages pages_per_batch page : Z)
    (w : World) : round_exit * World * list event :=
  let '(batch, evs) := fetch_movies_batch srv page pages_per_batch in
  let evs := Print (Processing page) :: evs in
  match batch with
  | [] => (Stop_, w, evs)
  | _ :: _ =>
      let fs' := save_to_csv batch default_filename (fs w) in
      match save_batch_to_db batch (db w) with
      | (Ok _, db', evs') =>
          (Continue_ (page + pages_per_batch), {| fs := fs'; db := db' |}, evs ++ evs')
      | (Raise e, db', evs') =>
          (Raised_ e, {| fs := fs'; db := db' |}, evs ++ evs')
      end
  end.

(** The loop, with [fuel] bounding the number of rounds; [None] when
    the fuel runs out. *)
Fixpoint while_pages (fuel : nat) (srv : remote)
    (max_pages pages_per_batch page : Z) (w : World)
    : option (result unit * World * list event) :=
  match fuel with
  | O => None
  | S fuel' =>
      if negb (page <=? max_pages) then Some (Ok tt, w, [])
      else
        match while_body srv max_pages pages_per_batch page w with
        | (Stop_, w', evs) => Some (Ok tt, w', evs)
        | (Raised_ e, w', evs) => Some (Raise e, w', evs)
        | (Continue_ page', w', evs) =>
            match while_pages fuel' srv max_pages pages_per_batch page' w' with
            | Some (r, w'', evs') => Some (r, w'', evs ++ evs')
            | None => None
            end
        end
  end.

(** The pipeline for a ceiling and a batch size; the fuel is one more
    than the number of pages up to the ceiling. *)
Definition pipeline (srv : remote) (max_pages pages_per_batch : Z) (w : World)
    : option (result unit * World * list event) :=
  match while_pages (S (Z.to_nat max_pages)) srv max_pages pages_per_batch 1 w with
  | Some (Ok _, w', evs) =>
      Some (Ok tt, w', [Print Starting; Print Connected] ++ evs ++ [Print Completed])
  | Some (Raise e, w', evs) =>
      Some (Raise e, w', [Print Starting; Print Connected] ++ evs ++ [Traceback e])
  | None => None
  end.

Definition main (srv : remote) (w : World)
    : option (result unit * World * list event) :=
  pipeline srv MAX_PAGES PAGES_PER_BATCH w.

(** ** Reference descriptions used in the statements *)

(** What a page comes to after its retries: the first attempt among
    the three that raises nothing decides. *)
Inductive page_outcome : Type :=
| Items (results : list CatalogItem)   (* a non-empty [results] *)
| EndOfData                            (* an empty [results] *)
| Skipped.                             (* three attempts raised *)

Fixpoint first_answer (srv : remote) (page : Z) (tries attempt : nat) : page_outcome :=
  match tries with
  | O => Skipped
  | S tries' =>
      match try_results (srv page attempt) with
      | Ok [] => EndOfData
      | Ok results => Items results
      | Raise _ => first_answer srv page tries' (S attempt)
      end
  end.

Definition outcome_of (srv : remote) (page : Z) : page_outcome :=
  first_answer srv page 3 0.

(** How the exit of the retry loop reads a page's outcome. *)
Definition exit_of (movies : list CatalogItem) (o : page_outcome) : while_exit :=
  match o with
  | Items results => Break_ (movies ++ results)
  | EndOfData => Return_ movies
  | Skipped => Else_ movies
  end.

(** A failed attempt in the interface's sense: a network error or a
    status other than 200. *)
Definition transient_failure (o : http_outcome) : bool :=
  match o with
  | NetworkError => true
  | Response status_code _ => negb (status_code =? 200)
  end.

Definition items_of (o : page_outcome) : list CatalogItem :=
  match o with Items results => results | _ => [] end.

(** The pages an event list requests, in order. *)
Definition requested (evs : list event) : list Z :=
  omap (fun e => match e with Get p => Some p | _ => None end) evs.

(** The batch without the items whose identifier occurred earlier in
    it. *)
Fixpoint first_occurrences (seen : list Z) (movies : list CatalogItem)
    : list CatalogItem :=
  match movies with
  | [] => []
  | m :: movies' =>
      if bool_decide (item_id m ∈ seen) then first_occurrences seen movies'
      else m :: first_occurrences (item_id m :: seen) movies'
  end.

(** What one call stages, item by item: [known] are the identifiers of
    the movies in the store or staged so far, [cache] is the genre
    cache.  The result lists the genres created and the movies built,
    each with its [genres] collection, in order. *)
Fixpoint link_genres (gids : list Z) (cache : gmap Z Genre)
    : gmap Z Genre * list Genre * list Genre :=
  match gids with
  | [] => (cache, [], [])
  | gid :: gids' =>
      match cache !! gid with
      | None =>
          let '(c, created, linked) := link_genres gids' (<[gid := new_genre gid]> cache) in
          (c, new_genre gid :: created, new_genre gid :: linked)
      | Some g =>
          let '(c, created, linked) := link_genres gids' cache in
          (c, created, g :: linked)
      end
  end.

Fixpoint staged (movies : list CatalogItem) (known : list Z) (cache : gmap Z Genre)
    : list Genre * list (Movie * list Genre) :=
  match movies with
  | [] => ([], [])
  | m :: movies' =>
      if bool_decide (item_id m ∈ known) then staged movies' known cache
      else
        let '(c, created, linked) := link_genres (get_genre_ids m) cache in
        let '(gs, ms) := staged movies' (item_id m :: known) c in
        (created ++ gs, (new_movie m, linked) :: ms)
  end.

Definition staged_for (batch : list CatalogItem) (st : Store)
    : list Genre * list (Movie * list Genre) :=
  staged batch (map id (movies st)) (genre_dict (genres st)).

(** The three INSERTs of a flush on the tables of [st]. *)
Definition commit_tables (st : Store) (gs : list Genre)
    (ms : list (Movie * list Genre)) : result Store :=
  match insert_many genre_id genre_types_ok gs (genres st) with
  | Raise e => Raise e
  | Ok gt =>
  match insert_many id movie_types_ok (map fst ms) (movies st) with
  | Raise e => Raise e
  | Ok mt =>
  match insert_many (fun p : Z * Z => p) pair_types_ok
          (flat_map assoc_rows ms) (movies_genres st) with
  | Raise e => Raise e
  | Ok pt => Ok {| movies := mt; genres := gt; movies_genres := pt |}
  end end end.

(** The identifiers a session knows: the movies its transaction sees
    and the pending ones. *)
Definition known (s : Session) : list Z :=
  map id (movies (tx s)) ++ map (fun p => id p.1) (new_movies s).

(** The session has a connection and its identity map holds rows of
    the transaction only. *)
Definition session_ok (s : Session) : Prop :=
  reachable (engine s) = true /\
  forall i m, identity_map s !! i = Some m -> i ∈ map id (movies (tx s)).

(** The genre cache is keyed by [genre_id]. *)
Definition cache_keyed (cache : gmap Z Genre) : Prop :=
  forall k g, cache !! k = Some g -> genre_id g = k.

(** A store extended by staged rows, table by table. *)
Definition extended (st : Store) (gs : list Genre)
    (ms : list (Movie * list Genre)) : Store :=
  {| movies := movies st ++ map fst ms;
     genres := genres st ++ gs;
     movies_genres := movies_genres st ++ flat_map assoc_rows ms |}.

(** The mirror after a sequence of appends. *)
Definition appends (batches : list (list CatalogItem)) (filename : string)
    (f : filesystem) : filesystem :=
  foldl (fun f batch => save_to_csv batch filename f) f batches.

Definition cell_is (s : string) (c : cell) : bool :=
  match c with CStr t => String.eqb t s | _ => false end.

(** [r] is the header record. *)
Definition is_header (r : csv_row) : bool :=
  match r with
  | [c1; c2; c3; c4; c5; c6; c7; c8] =>
      cell_is "id" c1 && cell_is "title" c2 && cell_is "overview" c3
      && cell_is "release_date" c4 && cell_is "vote_average" c5
      && cell_is "vote_count" c6 && cell_is "popularity" c7
      && cell_is "genre_ids" c8
  | _ => false
  end.

Definition count_header (rows : list csv_row) : nat :=
  length (List.filter is_header rows).

(** ** Sample inputs *)

Definition empty_store : Store :=
  {| movies := []; genres := []; movies_genres := [] |}.

Definition empty_db : Database :=
  {| reachable := true; committed := empty_store |}.

Definition empty_world : World := {| fs := ∅; db := empty_db |}.

Definition sample_item (ident : Z) (date_str : option string)
    (genre_ids : list Z) : CatalogItem :=
  {| item_id := ident; item_title := Some "Heat"; item_overview := None;
     item_release_date := date_str; item_vote_average := Some 8.5%float;
     item_vote_count := Some 12; item_popularity := None;
     item_genre_ids := Some genre_ids |}.

(** A catalog with one page of one item; every other page is empty. *)
Definition one_page_catalog : remote := fun page _ =>
  if page =? 1
  then Response 200 (JsonObject (Some [sample_item 7 (Some "1995-12-15") [1; 2]]))
  else Response 200 (JsonObject (Some [])).

(** A catalog that answers 503 on every attempt for page 1 and has
    nothing else. *)
Definition failing_catalog : remote := fun page _ =>
  if page =? 1 then Response 503 NotJson
  else Response 200 (JsonObject (Some [])).

(** A catalog whose first page holds one item that repeats a genre
    identifier. *)
Definition repeated_genre_catalog : remote := fun page _ =>
  if page =? 1
  then Response 200 (JsonObject (Some [sample_item 7 (Some "1995-12-15") [1; 1; 2]]))
  else Response 200 (JsonObject (Some [])).

(** ** Further reference descriptions *)

(** The pages whose results enter a batch: those that come to results
    before the first page that is the end of the data. *)
Fixpoint pages_read (srv : remote) (pages : list Z) : list Z :=
  match pages with
  | [] => []
  | page :: pages' =>
      match outcome_of srv page with
      | Items _ => page :: pages_read srv pages'
      | EndOfData => []
      | Skipped => pages_read srv pages'
      end
  end.

(** The time a trace sleeps, in milliseconds, and the number of its
    sleeps of a given length. *)
Definition slept (evs : list event) : Z :=
  foldr (fun e acc => match e with Sleep ms => ms + acc | _ => acc end) 0 evs.

Definition is_sleep (ms : Z) (e : event) : bool :=
  match e with Sleep n => n =? ms | _ => false end.

Definition count_sleeps (ms : Z) (evs : list event) : nat :=
  length (List.filter (is_sleep ms) evs).

(** The items of a batch that a call on store [st] does not skip: the
    first occurrence of each identifier the store does not hold. *)
Definition new_items (batch : list CatalogItem) (st : Store) : list CatalogItem :=
  first_occurrences (map id (movies st)) batch.

(** The association rows of an item: one per element of its
    [genre_ids]. *)
Definition item_pairs (m : CatalogItem) : list (Z * Z) :=
  map (fun gid => (item_id m, gid)) (get_genre_ids m).

(** Every association row refers to a movie and to a genre of the
    store; and the primary keys of the three tables are unique. *)
Definition referential_integrity (st : Store) : Prop :=
  forall p, p ∈ movies_genres st ->
    p.1 ∈ map id (movies st) /\ p.2 ∈ map genre_id (genres st).

Definition keys_unique (st : Store) : Prop :=
  NoDup (map id (movies st))
  /\ NoDup (map genre_id (genres st))
  /\ NoDup (movies_genres st).

(** World [w'] holds all that [w] held, in place: each table and each
    file of [w] is the head of the same table or file of [w']. *)
Definition grown (w w' : World) : Prop :=
  movies (committed (db w)) `prefix_of` movies (committed (db w'))
  /\ genres (committed (db w)) `prefix_of` genres (committed (db w'))
  /\ movies_genres (committed (db w)) `prefix_of` movies_genres (committed (db w'))
  /\ forall name content, fs w !! name = Some content ->
       exists content', fs w' !! name = Some content'
                        /\ content `prefix_of` content'.

(** ** Further sample inputs *)

(** A catalog that cannot be reached at all. *)
Definition dead_catalog : remote := fun _ _ => NetworkError.


(** A batch that holds identifier 7 twice, with different data. *)
Definition sample_batch : list CatalogItem :=
  [sample_item 7 (Some "1995-12-15") [1; 2];
   sample_item 8 (Some "2020-1-5") [2; 3];
   sample_item 7 None [3]].

(** * Properties *)

(** ** Dates *)

Lemma digit_val_range c : is_digit c = true -> 0 <= digit_val c <= 9.
Proof.
  unfold is_digit, digit_val. intros H.
  apply andb_true_iff in H as [H1 H2].
  apply Nat.leb_le in H1, H2. lia.
Qed.

Lemma digit_char_val c : is_digit c = true -> digit_char (digit_val c) = c.
Proof.
  intros H. pose proof (digit_val_range c H) as Hr.
  unfold digit_char, digit_val in *.
  replace (Z.to_nat (48 + (Z.of_nat (nat_of_ascii c) - 48))) with (nat_of_ascii c) by lia.
  apply ascii_nat_embedding.
Qed.

Lemma nat_of_digit_char n :
  0 <= n <= 9 -> nat_of_ascii (digit_char n) = Z.to_nat (48 + n).
Proof. intros H. unfold digit_char. apply nat_ascii_embedding. lia. Qed.

Lemma is_digit_digit_char n : 0 <= n <= 9 -> is_digit (digit_char n) = true.
Proof.
  intros H. unfold is_digit. rewrite nat_of_digit_char by done.
  apply andb_true_iff. split; apply Nat.leb_le; lia.
Qed.

Lemma digit_val_digit_char n : 0 <= n <= 9 -> digit_val (digit_char n) = n.
Proof. intros H. unfold digit_val. rewrite nat_of_digit_char by done. lia. Qed.

Lemma in_class_inv lo hi c :
  in_class lo hi c = true ->
  is_digit c = true /\ lo <= digit_val c <= hi.
Proof.
  unfold in_class. rewrite !andb_true_iff, !Z.leb_le. tauto.
Qed.

Lemma pad2_digits a b :
  is_digit a = true -> is_digit b = true ->
  pad2 (10 * digit_val a + digit_val b) = String a (String b EmptyString).
Proof.
  intros Ha Hb.
  pose proof (digit_val_range a Ha). pose proof (digit_val_range b Hb).
  unfold pad2.
  replace ((10 * digit_val a + digit_val b) / 10) with (digit_val a)
    by (apply Z.div_unique with (r := digit_val b); lia).
  replace ((10 * digit_val a + digit_val b) mod 10) with (digit_val b)
    by (apply Z.mod_unique with (q := digit_val a); lia).
  by rewrite !digit_char_val.
Qed.

Lemma pad4_digits a b c d :
  is_digit a = true -> is_digit b = true -> is_digit c = true -> is_digit d = true ->
  pad4 (1000 * digit_val a + 100 * digit_val b + 10 * digit_val c + digit_val d)
  = String a (String b (String c (String d EmptyString))).
Proof.
  intros Ha Hb Hc Hd.
  pose proof (digit_val_range a Ha). pose proof (digit_val_range b Hb).
  pose proof (digit_val_range c Hc). pose proof (digit_val_range d Hd).
  set (y := 1000 * digit_val a + 100 * digit_val b + 10 * digit_val c + digit_val d).
  unfold pad4.
  replace (y / 1000) with (digit_val a)
    by (apply Z.div_unique with (r := 100 * digit_val b + 10 * digit_val c + digit_val d); lia).
  replace (y mod 100) with (10 * digit_val c + digit_val d)
    by (apply Z.mod_unique with (q := 10 * digit_val a + digit_val b); lia).
  replace (y / 100) with (10 * digit_val a + digit_val b)
    by (apply Z.div_unique with (r := 10 * digit_val c + digit_val d); lia).
  replace ((10 * digit_val a + digit_val b) mod 10) with (digit_val b)
    by (apply Z.mod_unique with (q := digit_val a); lia).
  rewrite pad2_digits by done. by rewrite !digit_char_val.
Qed.

Lemma app_String a s r : String a s +:+ r = String a (s +:+ r).
Proof. reflexivity. Qed.

Lemma app_empty r : "" +:+ r = r.
Proof. reflexivity. Qed.

Lemma re_Y_pad4 y r :
  0 <= y <= 9999 -> re_Y (pad4 y +:+ r) = [(y, r)].
Proof.
  intros Hy. unfold pad4, pad2. rewrite !app_String, app_empty. unfold re_Y.
  assert (0 <= y / 1000 <= 9).
  { split; [apply Z.div_pos; lia |].
    cut (y / 1000 < 10); [lia | apply Z.div_lt_upper_bound; lia]. }
  assert (0 <= y / 100 mod 10 <= 9) by (pose proof (Z.mod_pos_bound (y / 100) 10); lia).
  assert (0 <= y mod 100 / 10 <= 9).
  { pose proof (Z.mod_pos_bound y 100).
    split; [apply Z.div_pos; lia |].
    cut (y mod 100 / 10 < 10); [lia | apply Z.div_lt_upper_bound; lia]. }
  assert (0 <= (y mod 100) mod 10 <= 9) by (pose proof (Z.mod_pos_bound (y mod 100) 10); lia).
  rewrite !is_digit_digit_char, !digit_val_digit_char by done. cbn [andb].
  do 2 f_equal.
  pose proof (Z.div_mod y 100 ltac:(lia)).
  pose proof (Z.div_mod (y / 100) 10 ltac:(lia)).
  pose proof (Z.div_mod (y mod 100) 10 ltac:(lia)).
  replace (y / 1000) with (y / 100 / 10) by (rewrite Z.div_div by lia; done).
  lia.
Qed.
Lemma between_cases (n lo hi : Z) :
  lo <= n <= hi -> n ∈ seqZ lo (hi - lo + 1).
Proof. intros. apply elem_of_seqZ. lia. Qed.

Lemma re_d_spelling d ds :
  1 <= d <= 31 -> ds ∈ pad2 d :: unpadded d ++ space_padded d ->
  exists tl, re_d ds = (d, "") :: tl.
Proof.
  intros Hd Hds. apply (between_cases d 1 31) in Hd.
  vm_compute in Hd.
  repeat (apply elem_of_cons in Hd as [-> | Hd]);
    [ .. | by apply elem_of_nil in Hd];
    vm_compute in Hds;
    repeat (apply elem_of_cons in Hds as [-> | Hds]);
    try (by apply elem_of_nil in Hds);
    eexists; vm_compute; reflexivity.
Qed.

Ltac eval_classes :=
  repeat match goal with
  | |- context [in_class ?l ?h ?c] =>
      let v := eval vm_compute in (in_class l h c) in
      change (in_class l h c) with v
  | |- context [digit_val ?c] =>
      let v := eval vm_compute in (digit_val c) in
      change (digit_val c) with v
  end.

Lemma format_regex_spelling y m d ms ds :
  0 <= y <= 9999 -> 1 <= m <= 12 -> 1 <= d <= 31 ->
  ms ∈ pad2 m :: unpadded m ->
  ds ∈ pad2 d :: unpadded d ++ space_padded d ->
  exists tl, format_regex (pad4 y +:+ "-" +:+ ms +:+ "-" +:+ ds) = (y, m, d, "") :: tl.
Proof.
  intros Hy Hm Hd Hms Hds.
  destruct (re_d_spelling d ds Hd Hds) as [tl Htl].
  unfold format_regex. rewrite re_Y_pad4 by done.
  apply (between_cases m 1 12) in Hm. vm_compute in Hm.
  repeat (apply elem_of_cons in Hm as [-> | Hm]);
    [ .. | by apply elem_of_nil in Hm];
    vm_compute in Hms;
    repeat (apply elem_of_cons in Hms as [-> | Hms]);
    try (by apply elem_of_nil in Hms).
  all: rewrite ?app_String, ?app_empty.
  all: unfold re_m, re_two, re_one; cbn -[re_d]; eval_classes; cbn -[re_d].
  all: rewrite Htl; cbn; eexists; reflexivity.
Qed.

Lemma elem_of_re_Y v r s :
  (v, r) ∈ re_Y s -> s = pad4 v +:+ r /\ 0 <= v <= 9999.
Proof.
  unfold re_Y.
  destruct s as [|a [|b [|c [|d r0]]]]; try (intros H; by apply elem_of_nil in H).
  destruct (is_digit a) eqn:Ha; [| intros H; by apply elem_of_nil in H].
  destruct (is_digit b) eqn:Hb; [| intros H; by apply elem_of_nil in H].
  destruct (is_digit c) eqn:Hc; [| intros H; by apply elem_of_nil in H].
  destruct (is_digit d) eqn:Hd; [| intros H; by apply elem_of_nil in H].
  cbn [andb]. intros H. apply list_elem_of_singleton in H. injection H as -> ->.
  rewrite pad4_digits by done.
  pose proof (digit_val_range a Ha). pose proof (digit_val_range b Hb).
  pose proof (digit_val_range c Hc). pose proof (digit_val_range d Hd).
  split; [reflexivity | lia].
Qed.

Lemma elem_of_re_lit ch r s : r ∈ re_lit ch s -> s = String ch r.
Proof.
  unfold re_lit. destruct s as [|c r0]; [intros H; by apply elem_of_nil in H |].
  destruct (Ascii.eqb c ch) eqn:E; [| intros H; by apply elem_of_nil in H].
  intros H. apply list_elem_of_singleton in H. apply Ascii.eqb_eq in E. by subst.
Qed.

Lemma elem_of_re_two l1 h1 l2 h2 v r s :
  (v, r) ∈ re_two l1 h1 l2 h2 s ->
  s = pad2 v +:+ r /\ 10 * l1 + l2 <= v <= 10 * h1 + h2.
Proof.
  unfold re_two.
  destruct s as [|c1 [|c2 r0]]; try (intros H; by apply elem_of_nil in H).
  destruct (in_class l1 h1 c1) eqn:H1; [| intros H; by apply elem_of_nil in H].
  destruct (in_class l2 h2 c2) eqn:H2; [| intros H; by apply elem_of_nil in H].
  cbn [andb]. intros H. apply list_elem_of_singleton in H. injection H as -> ->.
  apply in_class_inv in H1 as [D1 R1]. apply in_class_inv in H2 as [D2 R2].
  rewrite pad2_digits by done. split; [reflexivity | lia].
Qed.

Lemma elem_of_re_one l h v r s :
  (v, r) ∈ re_one l h s -> s = String (digit_char v) r /\ l <= v <= h.
Proof.
  unfold re_one. destruct s as [|c r0]; [intros H; by apply elem_of_nil in H |].
  destruct (in_class l h c) eqn:H1; [| intros H; by apply elem_of_nil in H].
  intros H. apply list_elem_of_singleton in H. injection H as -> ->.
  apply in_class_inv in H1 as [D1 R1]. by rewrite digit_char_val.
Qed.

Lemma elem_of_re_space_one l h v r s :
  (v, r) ∈ re_space_one l h s ->
  s = String " " (String (digit_char v) r) /\ l <= v <= h.
Proof.
  unfold re_space_one.
  destruct s as [|sp [|c r0]]; try (intros H; by apply elem_of_nil in H).
  destruct (Ascii.eqb sp " ") eqn:E; [| intros H; by apply elem_of_nil in H].
  destruct (in_class l h c) eqn:H1; [| intros H; by apply elem_of_nil in H].
  cbn [andb]. intros H. apply list_elem_of_singleton in H. injection H as -> ->.
  apply Ascii.eqb_eq in E. subst sp.
  apply in_class_inv in H1 as [D1 R1]. by rewrite digit_char_val.
Qed.

Lemma elem_of_re_m v r s :
  (v, r) ∈ re_m s ->
  1 <= v <= 12 /\ exists ms, ms ∈ pad2 v :: unpadded v /\ s = ms +:+ r.
Proof.
  unfold re_m. rewrite !elem_of_app. intros [H | [H | H]].
  - apply elem_of_re_two in H as [-> ?]. split; [lia |].
    eexists; split; [apply list_elem_of_here | done].
  - apply elem_of_re_two in H as [-> ?]. split; [lia |].
    eexists; split; [apply list_elem_of_here | done].
  - apply elem_of_re_one in H as [-> ?]. split; [lia |].
    eexists; split; [apply list_elem_of_further |].
    + unfold unpadded. destruct (Z.ltb_spec v 10); [apply list_elem_of_here | lia].
    + done.
Qed.

Lemma elem_of_re_d v r s :
  (v, r) ∈ re_d s ->
  1 <= v <= 31 /\
  exists ds, ds ∈ pad2 v :: unpadded v ++ space_padded v /\ s = ds +:+ r.
Proof.
  unfold re_d. rewrite !elem_of_app. intros [H | [H | [H | [H | H]]]].
  1-3: apply elem_of_re_two in H as [-> ?]; (split; [lia |]);
       eexists; (split; [apply list_elem_of_here | done]).
  - apply elem_of_re_one in H as [-> ?]. split; [lia |].
    eexists; split; [apply list_elem_of_further, elem_of_app; left |].
    + unfold unpadded. destruct (Z.ltb_spec v 10); [apply list_elem_of_here | lia].
    + done.
  - apply elem_of_re_space_one in H as [-> ?]. split; [lia |].
    eexists; split; [apply list_elem_of_further, elem_of_app; right |].
    + unfold space_padded. destruct (Z.ltb_spec v 10); [apply list_elem_of_here | lia].
    + done.
Qed.

Lemma elem_of_format_regex y m d r s :
  (y, m, d, r) ∈ format_regex s ->
  0 <= y <= 9999 /\ 1 <= m <= 12 /\ 1 <= d <= 31 /\
  exists ms ds,
    ms ∈ pad2 m :: unpadded m /\
    ds ∈ pad2 d :: unpadded d ++ space_padded d /\
    s = pad4 y +:+ "-" +:+ ms +:+ "-" +:+ ds +:+ r.
Proof.
  unfold format_regex. intros H.
  apply list_elem_of_bind in H as [[y' s1] [H H1]].
  apply list_elem_of_bind in H as [s2 [H H2]].
  apply list_elem_of_bind in H as [[m' s3] [H H3]].
  apply list_elem_of_bind in H as [s4 [H H4]].
  apply list_elem_of_bind in H as [[d' s5] [H H5]].
  apply list_elem_of_singleton in H. injection H as -> -> -> ->.
  apply elem_of_re_Y in H1 as [-> Hy].
  apply elem_of_re_lit in H2 as ->.
  apply elem_of_re_m in H3 as [Hm [ms [Hms ->]]].
  apply elem_of_re_lit in H4 as ->.
  apply elem_of_re_d in H5 as [Hd [ds [Hds ->]]].
  repeat split; try lia.
  exists ms, ds. repeat split; try done.
Qed.

Lemma app_empty_r s : s +:+ "" = s.
Proof. induction s as [|c s IH]; [done |]. by rewrite app_String, IH. Qed.

Lemma valid_date_bounds y m d :
  valid_date y m d = true -> 0 <= y <= 9999 /\ 1 <= m <= 12 /\ 1 <= d <= 31.
Proof.
  unfold valid_date. rewrite !andb_true_iff, !Z.leb_le.
  intros [[[[[? ?] ?] ?] ?] Hd].
  assert (days_in_month y m <= 31).
  { unfold days_in_month.
    destruct (m =? 2); [destruct (is_leap y); lia |].
    destruct ((m =? 4) || (m =? 6) || (m =? 9) || (m =? 11)); lia. }
  lia.
Qed.

Lemma parse_date_safe_Some s d :
  parse_date_safe (Some s) = Some d <->
  valid_date (year d) (month d) (day d) = true /\ s ∈ spellings d.
Proof.
  unfold parse_date_safe, strptime_date. split.
  - destruct (format_regex s) as [|[[[y m] dd] rest] tl] eqn:E; [done |].
    destruct rest; [| done].
    destruct (valid_date y m dd) eqn:V; [| done].
    intros [= <-]. split; [done |]. cbn [year month day].
    assert (H : (y, m, dd, "") ∈ format_regex s) by (rewrite E; apply list_elem_of_here).
    apply elem_of_format_regex in H as (_ & _ & _ & ms & ds & Hms & Hds & ->).
    unfold spellings. cbn [year month day].
    apply list_elem_of_bind. exists ms. split; [| done].
    apply list_elem_of_bind. exists ds. split; [| done].
    rewrite app_empty_r. apply list_elem_of_here.
  - destruct d as [y m dd]. cbn [year month day]. intros [V H].
    unfold spellings in H. cbn [year month day] in H.
    apply list_elem_of_bind in H as (ms & H & Hms).
    apply list_elem_of_bind in H as (ds & H & Hds).
    apply list_elem_of_singleton in H as ->.
    destruct (valid_date_bounds _ _ _ V) as (Hy & Hm & Hd).
    destruct (format_regex_spelling y m dd ms ds Hy Hm Hd Hms Hds) as [tl ->].
    by rewrite V.
Qed.

Lemma isoformat_spelling d : isoformat d ∈ spellings d.
Proof.
  unfold spellings, isoformat.
  apply list_elem_of_bind. exists (pad2 (month d)). split; [| apply list_elem_of_here].
  apply list_elem_of_bind. exists (pad2 (day d)). split; [| apply list_elem_of_here].
  apply list_elem_of_here.
Qed.



(** ** The collector *)

Lemma requested_app evs1 evs2 :
  requested (evs1 ++ evs2) = requested evs1 ++ requested evs2.
Proof. apply omap_app. Qed.

Lemma while_retries_exit srv page retries attempt movies :
  (while_retries srv page retries attempt movies).1
  = exit_of movies (first_answer srv page retries attempt).
Proof.
  revert attempt. induction retries as [|n IH]; intros attempt; [done |].
  cbn [while_retries first_answer].
  destruct (try_results (srv page attempt)) as [[|r rs]|e]; [done | done |].
  specialize (IH (S attempt)).
  destruct (while_retries srv page n (S attempt) movies) as [x evs]. exact IH.
Qed.

Lemma while_retries_requested srv page retries attempt movies p :
  p ∈ requested (while_retries srv page retries attempt movies).2 -> p = page.
Proof.
  revert attempt. induction retries as [|n IH]; intros attempt;
    cbn [while_retries].
  - cbn. by intros ?%elem_of_nil.
  - destruct (try_results (srv page attempt)) as [[|r rs]|e].
    + cbn. by intros ->%list_elem_of_singleton.
    + cbn. by intros ->%list_elem_of_singleton.
    + specialize (IH (S attempt)).
      destruct (while_retries srv page n (S attempt) movies) as [x evs].
      cbn in *. intros [-> | H]%elem_of_cons; [done | auto].
Qed.

(** The loop up to the first page that is the end of the data. *)
Lemma for_pages_until srv pre k post movies :
  (forall p, p ∈ pre -> outcome_of srv p <> EndOfData) ->
  outcome_of srv k = EndOfData ->
  (for_pages srv (pre ++ k :: post) movies).1
    = movies ++ flat_map (fun p => items_of (outcome_of srv p)) pre
  /\ (forall p, p ∈ requested (for_pages srv (pre ++ k :: post) movies).2 ->
        p ∈ pre ++ [k]).
Proof.
  intros Hpre Hk. revert movies.
  induction pre as [|q pre IH]; intros movies; cbn [app for_pages flat_map].
  - pose proof (while_retries_exit srv k 3 0 movies) as E.
    pose proof (while_retries_requested srv k 3 0 movies) as R.
    fold (outcome_of srv k) in E. rewrite Hk in E. cbn [exit_of] in E.
    revert E R.
    destruct (while_retries srv k 3 0 movies) as [x evs]. cbn [fst snd].
    intros -> R.
    cbn. rewrite app_nil_r. split; [done |].
    intros p Hp. apply R in Hp as ->. apply list_elem_of_here.
  - pose proof (while_retries_exit srv q 3 0 movies) as E.
    pose proof (while_retries_requested srv q 3 0 movies) as R.
    fold (outcome_of srv q) in E.
    assert (Hq : outcome_of srv q <> EndOfData) by (apply Hpre, list_elem_of_here).
    assert (Hpre' : forall p, p ∈ pre -> outcome_of srv p <> EndOfData)
      by (intros p Hp; apply Hpre, list_elem_of_further, Hp).
    revert E R.
    destruct (while_retries srv q 3 0 movies) as [x evs]. cbn [fst snd].
    intros -> R.
    destruct (outcome_of srv q) as [rs| |] eqn:Oq; [| done |]; cbn [exit_of items_of].
    + destruct (IH Hpre' (movies ++ rs)) as [I1 I2].
      destruct (for_pages srv (pre ++ k :: post) (movies ++ rs)) as [r evs'].
      cbn in *. split; [by rewrite I1, <- app_assoc |].
      intros p. rewrite requested_app, elem_of_app.
      intros [Hp | Hp]; [apply R in Hp as ->; apply list_elem_of_here |].
      apply list_elem_of_further. auto.
    + destruct (IH Hpre' movies) as [I1 I2].
      destruct (for_pages srv (pre ++ k :: post) movies) as [r evs'].
      cbn in *. split; [done |].
      intros p. rewrite requested_app, elem_of_app.
      intros [Hp | Hp]; [apply R in Hp as ->; apply list_elem_of_here |].
      apply list_elem_of_further. auto.
Qed.

Lemma range_split start stop k :
  start <= k < stop ->
  range start stop = range start k ++ k :: range (k + 1) stop.
Proof.
  intros H. unfold range.
  replace (stop - start) with ((k - start) + (stop - k)) by lia.
  rewrite seqZ_app by lia. f_equal.
  replace (start + (k - start)) with k by lia.
  rewrite seqZ_cons by lia. f_equal. f_equal; lia.
Qed.

Lemma elem_of_range start stop p : p ∈ range start stop <-> start <= p < stop.
Proof. unfold range. rewrite elem_of_seqZ. lia. Qed.

Lemma fetch_until srv start size k :
  start <= k < start + size ->
  (forall p, start <= p < k -> outcome_of srv p <> EndOfData) ->
  outcome_of srv k = EndOfData ->
  (fetch_movies_batch srv start size).1
    = flat_map (fun p => items_of (outcome_of srv p)) (range start k)
  /\ (forall p, p ∈ requested (fetch_movies_batch srv start size).2 ->
        start <= p <= k).
Proof.
  intros Hk Hpre Hend. unfold fetch_movies_batch.
  rewrite (range_split start (start + size) k) by done.
  destruct (for_pages_until srv (range start k) k (range (k + 1) (start + size)) [])
    as [I1 I2]; [| done |].
  { intros p Hp%elem_of_range. auto. }
  split; [done |].
  intros p Hp. apply I2 in Hp. apply elem_of_app in Hp as [Hp%elem_of_range | Hp].
  - lia.
  - apply list_elem_of_singleton in Hp. lia.
Qed.

Lemma flat_map_ext_elem {A B} (f g : A -> list B) (l : list A) :
  (forall x, x ∈ l -> f x = g x) -> flat_map f l = flat_map g l.
Proof.
  induction l as [|a l IH]; intros H; [done |]. cbn.
  rewrite (H a) by apply list_elem_of_here.
  rewrite IH; [done |]. intros x Hx. apply H, list_elem_of_further, Hx.
Qed.

(** C5.  When every page from [start] to [k - 1] comes to results and
    page [k], inside the batch, comes to an empty [results], the batch
    collected is exactly the results of pages [start .. k-1] joined in
    page order, each page's items in the order received; page [k] and
    the pages after it contribute nothing and the pages after [k] are not
    requested. *)
Theorem collector_exact_on_early_termination
    (srv : remote) (start size k : Z) (items : Z -> list CatalogItem) :
  start <= k < start + size ->
  (forall p, start <= p < k -> outcome_of srv p = Items (items p)) ->
  outcome_of srv k = EndOfData ->
  (fetch_movies_batch srv start size).1 = flat_map items (range start k)
  /\ (forall p, p ∈ requested (fetch_movies_batch srv start size).2 -> start <= p <= k).
Proof.
  intros Hk Hpre Hend.
  destruct (fetch_until srv start size k Hk) as [I1 I2]; [| done |].
  { intros p Hp. rewrite (Hpre p Hp). done. }
  split; [| done]. rewrite I1.
  apply flat_map_ext_elem. intros p Hp%elem_of_range.
  by rewrite (Hpre p Hp).
Qed.

Lemma transient_failure_raises o :
  transient_failure o = true -> exists e, try_results o = Raise e.
Proof.
  destruct o as [|code body]; cbn; [by eexists |].
  intros ->. by eexists.
Qed.

(** C6.  A page whose three attempts all fail (network error or a
    status other than 200) is requested exactly three times, each
    failed attempt is followed by a sleep of 2 s, the page adds no item
    to the batch, nothing is raised, and the loop goes on with the next
    page of the batch. *)
Theorem retry_containment
    (srv : remote) (page : Z) (pages' : list Z) (movies : list CatalogItem) :
  (forall a, (a < 3)%nat -> transient_failure (srv page a) = true) ->
  exists e0 e1 e2,
    for_pages srv (page :: pages') movies =
    ((for_pages srv pages' movies).1,
     [Print (Fetching page); Get page; Print (Retrying page 2 e0); Sleep 2000;
      Print (Fetching page); Get page; Print (Retrying page 1 e1); Sleep 2000;
      Print (Fetching page); Get page; Print (Retrying page 0 e2); Sleep 2000;
      Print (Skipping page)]
     ++ (for_pages srv pages' movies).2).
Proof.
  intros H.
  destruct (transient_failure_raises _ (H 0%nat ltac:(lia))) as [e0 E0].
  destruct (transient_failure_raises _ (H 1%nat ltac:(lia))) as [e1 E1].
  destruct (transient_failure_raises _ (H 2%nat ltac:(lia))) as [e2 E2].
  exists e0, e1, e2.
  cbn [for_pages while_retries]. rewrite E0, E1, E2. cbn [app].
  by destruct (for_pages srv pages' movies).
Qed.

(** ** The mirror file *)

Lemma save_to_csv_absent movies filename (f : filesystem) :
  f !! filename = None ->
  save_to_csv movies filename f
  = <[filename := header :: map movie_row movies]> f.
Proof. intros H. unfold save_to_csv. rewrite H. by rewrite bool_decide_false by (by intros []). Qed.

Lemma save_to_csv_present movies filename (f : filesystem) content :
  f !! filename = Some content ->
  save_to_csv movies filename f
  = <[filename := content ++ map movie_row movies]> f.
Proof. intros H. unfold save_to_csv. rewrite H. by rewrite bool_decide_true by (by eexists). Qed.

Lemma appends_present batches filename (f : filesystem) content :
  f !! filename = Some content ->
  appends batches filename f !! filename
  = Some (content ++ flat_map (map movie_row) batches).
Proof.
  revert f content. induction batches as [|b bs IH]; intros f content H; cbn.
  - by rewrite app_nil_r.
  - unfold appends in IH. rewrite (save_to_csv_present _ _ _ _ H).
    erewrite IH by apply lookup_insert_eq. by rewrite <- app_assoc.
Qed.

Lemma count_header_app rows1 rows2 :
  count_header (rows1 ++ rows2) = (count_header rows1 + count_header rows2)%nat.
Proof. unfold count_header. by rewrite List.filter_app, length_app. Qed.

Lemma count_header_movie_rows movies : count_header (map movie_row movies) = 0%nat.
Proof. induction movies as [|m ms IH]; [done |]. exact IH. Qed.

Lemma count_header_batches batches :
  count_header (flat_map (map movie_row) batches) = 0%nat.
Proof.
  induction batches as [|b bs IH]; [done |]. cbn [flat_map].
  by rewrite count_header_app, count_header_movie_rows, IH.
Qed.

(** C8.  Over any sequence of appends to one destination: when the
    file does not exist, the first call creates it and writes the
    header as its first record, and the file holds exactly one header
    whatever the number of batches appended after; a call on a file
    that exists writes no header. *)
Theorem mirror_header_once
    (batches : list (list CatalogItem)) (filename : string) (f : filesystem) :
  (f !! filename = None -> batches <> [] ->
     appends batches filename f !! filename
       = Some (header :: flat_map (map movie_row) batches)
     /\ count_header (header :: flat_map (map movie_row) batches) = 1%nat)
  /\ (forall content, f !! filename = Some content ->
        exists content',
          appends batches filename f !! filename = Some (content ++ content')
          /\ count_header (content ++ content') = count_header content).
Proof.
  split.
  - intros H Hne. destruct batches as [|b bs]; [done |]. split.
    + cbn. rewrite (save_to_csv_absent _ _ _ H).
      fold (appends bs filename (<[filename:=header :: map movie_row b]> f)).
      erewrite appends_present by apply lookup_insert_eq. done.
    + change (header :: ?l) with ([header] ++ l).
      by rewrite count_header_app, count_header_batches.
  - intros content H. eexists. split; [by apply appends_present |].
    rewrite count_header_app, count_header_batches. lia.
Qed.

(** C10.  An append of the empty batch creates a missing file with the
    header as its only record, and leaves an existing file, and the
    whole file system, as it was. *)
Theorem mirror_empty_batch (filename : string) (f : filesystem) :
  (f !! filename = None ->
     save_to_csv [] filename f = <[filename := [header]]> f)
  /\ (forall content, f !! filename = Some content ->
        save_to_csv [] filename f = f).
Proof.
  split.
  - intros H. by rewrite (save_to_csv_absent _ _ _ H).
  - intros content H. rewrite (save_to_csv_present _ _ _ _ H). cbn.
    rewrite app_nil_r. by apply insert_id.
Qed.

(** ** The store and the session *)

Section InsertFacts.
Context {R K : Type} `{EqDecision K}.
Variable key : R -> K.
Variable types_ok : R -> bool.

Lemma insert_many_app rows1 rows2 (t : list R) :
  insert_many key types_ok (rows1 ++ rows2) t
  = match insert_many key types_ok rows1 t with
    | Ok t' => insert_many key types_ok rows2 t'
    | Raise e => Raise e
    end.
Proof.
  revert t. induction rows1 as [|r rows1 IH]; intros t; cbn; [done |].
  destruct (insert_row key types_ok r t); [apply IH | done].
Qed.

Lemma insert_row_Ok r (t t' : list R) :
  insert_row key types_ok r t = Ok t' ->
  t' = t ++ [r] /\ key r ∉ map key t.
Proof.
  unfold insert_row. destruct (types_ok r); cbn; [| done].
  case_bool_decide; [done |]. by intros [= <-].
Qed.

Lemma insert_many_Ok rows (t t' : list R) :
  insert_many key types_ok rows t = Ok t' -> t' = t ++ rows.
Proof.
  revert t. induction rows as [|r rows IH]; intros t; cbn.
  - intros [= <-]. by rewrite app_nil_r.
  - destruct (insert_row key types_ok r t) as [t1|] eqn:E; [| done].
    apply insert_row_Ok in E as [-> _]. intros ->%IH. by rewrite <- app_assoc.
Qed.

Lemma insert_many_NoDup rows (t t' : list R) :
  insert_many key types_ok rows t = Ok t' ->
  NoDup (map key t) -> NoDup (map key t').
Proof.
  revert t. induction rows as [|r rows IH]; intros t; cbn.
  - by intros [= <-].
  - destruct (insert_row key types_ok r t) as [t1|] eqn:E; [| done].
    apply insert_row_Ok in E as [-> Hk]. intros Hi Hn.
    apply (IH _ Hi). rewrite map_app. cbn.
    apply NoDup_app. repeat split; [done | | apply NoDup_singleton].
    intros x Hx ->%list_elem_of_singleton. done.
Qed.
End InsertFacts.

Lemma commit_tables_nil st : commit_tables st [] [] = Ok st.
Proof. by destruct st. Qed.

Lemma commit_tables_Ok st gs ms st' :
  commit_tables st gs ms = Ok st' -> st' = extended st gs ms.
Proof.
  unfold commit_tables, extended.
  destruct (insert_many genre_id genre_types_ok gs (genres st)) as [gt|] eqn:Eg; [| done].
  destruct (insert_many id movie_types_ok (map fst ms) (movies st)) as [mt|] eqn:Em; [| done].
  destruct (insert_many _ pair_types_ok _ (movies_genres st)) as [pt|] eqn:Ep; [| done].
  intros [= <-].
  apply insert_many_Ok in Eg as ->. apply insert_many_Ok in Em as ->.
  by apply insert_many_Ok in Ep as ->.
Qed.

(** A flush in two parts. *)
Lemma commit_tables_app st gs1 ms1 gs2 ms2 :
  match commit_tables st gs1 ms1 with
  | Ok st1 => commit_tables st (gs1 ++ gs2) (ms1 ++ ms2) = commit_tables st1 gs2 ms2
  | Raise _ => exists e, commit_tables st (gs1 ++ gs2) (ms1 ++ ms2) = Raise e
  end.
Proof.
  unfold commit_tables.
  rewrite map_app, flat_map_app, !insert_many_app.
  destruct (insert_many genre_id genre_types_ok gs1 (genres st)) as [gt|]; [| by eexists].
  destruct (insert_many id movie_types_ok (map fst ms1) (movies st)) as [mt|].
  2:{ destruct (insert_many genre_id genre_types_ok gs2 gt); by eexists. }
  destruct (insert_many _ pair_types_ok (flat_map assoc_rows ms1) (movies_genres st)) as [pt|].
  2:{ destruct (insert_many genre_id genre_types_ok gs2 gt); [| by eexists].
      destruct (insert_many id movie_types_ok (map fst ms2) mt); by eexists. }
  reflexivity.
Qed.

Lemma flush_eq s :
  flush s =
  match commit_tables (tx s) (new_genres s) (new_movies s) with
  | Ok st =>
      (Ok tt,
       {| engine := engine s; tx := st;
          identity_map :=
            foldl (fun im p => <[id p.1 := p.1]> im) (identity_map s) (new_movies s);
          new_genres := []; new_movies := [] |})
  | Raise e => (Raise e, s)
  end.
Proof.
  unfold flush, commit_tables.
  destruct (insert_many genre_id genre_types_ok _ _); [| done].
  destruct (insert_many id movie_types_ok _ _); [| done].
  by destruct (insert_many _ pair_types_ok _ _).
Qed.

Lemma foldl_identity_keys (ms : list (Movie * list Genre)) (im : gmap Z Movie) i m :
  foldl (fun im p => <[id p.1 := p.1]> im) im ms !! i = Some m ->
  im !! i = Some m \/ i ∈ map (fun p => id p.1) ms.
Proof.
  revert im. induction ms as [|p ms IH]; intros im; cbn; [by left |].
  intros [H | H]%IH.
  - destruct (decide (id p.1 = i)) as [<- | Hne].
    + right. apply list_elem_of_here.
    + rewrite lookup_insert_ne in H by done. by left.
  - right. by apply list_elem_of_further.
Qed.

Lemma find_by_id ident (t : list Movie) :
  match List.find (fun r => bool_decide (id r = ident)) t with
  | Some _ => ident ∈ map id t
  | None => ident ∉ map id t
  end.
Proof.
  induction t as [|r t IH]; cbn; [by intros ?%elem_of_nil |].
  case_bool_decide as E.
  - subst. apply list_elem_of_here.
  - destruct (List.find _ t).
    + by apply list_elem_of_further.
    + intros [? | ?]%elem_of_cons; [congruence | done].
Qed.

Lemma for_genre_ids_spec gids cache acc s :
  for_genre_ids gids cache acc s =
  (Ok ((link_genres gids cache).1.1, acc ++ (link_genres gids cache).2),
   {| engine := engine s; tx := tx s; identity_map := identity_map s;
      new_genres := new_genres s ++ (link_genres gids cache).1.2;
      new_movies := new_movies s |}).
Proof.
  revert cache acc s. induction gids as [|gid gids IH]; intros cache acc s;
    cbn [for_genre_ids link_genres].
  - cbn. rewrite !app_nil_r. by destruct s.
  - destruct (cache !! gid) as [g|].
    + rewrite IH. destruct (link_genres gids cache) as [[c created] linked].
      cbn. by rewrite <- app_assoc.
    + unfold bind, session_add_genre. rewrite IH.
      destruct (link_genres gids (<[gid:=new_genre gid]> cache)) as [[c created] linked].
      cbn. by rewrite <- !app_assoc.
Qed.

(** [staged] reads [known] as a set. *)
Lemma staged_ext batch known1 known2 cache :
  (forall i, i ∈ known1 <-> i ∈ known2) ->
  staged batch known1 cache = staged batch known2 cache.
Proof.
  revert known1 known2 cache.
  induction batch as [|m batch IH]; intros known1 known2 cache H; cbn; [done |].
  rewrite (bool_decide_ext _ _ (H (item_id m))).
  case_bool_decide; [by apply IH |].
  destruct (link_genres (get_genre_ids m) cache) as [[c created] linked].
  rewrite (IH (item_id m :: known1) (item_id m :: known2) c); [done |].
  intros i. rewrite !elem_of_cons. by rewrite H.
Qed.

(** What [session.get] does to a session in good order: it answers
    from the identity map, or it flushes and selects. *)
Lemma session_get_spec ident s :
  session_ok s ->
  (exists m, session_get ident s = (Ok (Some m), s) /\ ident ∈ known s)
  \/ (exists e, session_get ident s = (Raise e, s)
        /\ commit_tables (tx s) (new_genres s) (new_movies s) = Raise e)
  \/ (exists st found s1,
        commit_tables (tx s) (new_genres s) (new_movies s) = Ok st
        /\ session_get ident s = (Ok found, s1)
        /\ engine s1 = engine s /\ tx s1 = st
        /\ new_genres s1 = [] /\ new_movies s1 = []
        /\ session_ok s1
        /\ known s1 = known s
        /\ (is_Some found <-> ident ∈ known s)).
Proof.
  intros [Hr Him]. unfold session_get.
  destruct (identity_map s !! ident) as [m|] eqn:Ei.
  { left. exists m. split; [done |]. unfold known.
    apply elem_of_app. left. eauto. }
  right. unfold bind, connect, ret, raise. rewrite Hr, flush_eq.
  destruct (commit_tables (tx s) (new_genres s) (new_movies s)) as [st|e] eqn:Ec.
  2:{ left. by exists e. }
  right. pose proof (commit_tables_Ok _ _ _ _ Ec) as Est.
  assert (Hids : map id (movies st) = known s).
  { subst st. unfold extended, known. cbn. by rewrite map_app, map_map. }
  assert (Him' : forall i m,
    foldl (fun im p => <[id p.1 := p.1]> im) (identity_map s) (new_movies s) !! i
      = Some m -> i ∈ map id (movies st)).
  { intros i m [H | H]%foldl_identity_keys; rewrite Hids; unfold known;
      apply elem_of_app; [left; eauto | by right]. }
  cbn [tx]. pose proof (find_by_id ident (movies st)) as Hf.
  destruct (List.find _ (movies st)) as [m|].
  - eexists st, (Some m), _. split; [done |]. split; [reflexivity |].
    cbn. repeat split; try done;
      cbn [engine tx identity_map new_genres new_movies].
    2: by (unfold known at 1; cbn; rewrite app_nil_r).
    + intros i m'. destruct (decide (ident = i)) as [<- | Hne].
      * by intros _.
      * rewrite lookup_insert_ne by done. apply Him'.
    + intros _. by rewrite <- Hids.
  - eexists st, None, _. split; [done |]. split; [reflexivity |].
    cbn. repeat split; try done;
      cbn [engine tx identity_map new_genres new_movies].
    + unfold known at 1; cbn. by rewrite app_nil_r.
    + intros H. rewrite <- Hids in H. done.
Qed.

Lemma for_movies_spec batch cache s :
  session_ok s ->
  match for_movies batch cache s with
  | (Ok _, s') =>
      engine s' = engine s /\ session_ok s' /\
      commit_tables (tx s') (new_genres s') (new_movies s')
      = commit_tables (tx s) (new_genres s ++ (staged batch (known s) cache).1)
          (new_movies s ++ (staged batch (known s) cache).2)
  | (Raise _, s') =>
      engine s' = engine s /\
      exists e, commit_tables (tx s) (new_genres s ++ (staged batch (known s) cache).1)
                  (new_movies s ++ (staged batch (known s) cache).2) = Raise e
  end.
Proof.
  revert cache s. induction batch as [|m batch IH]; intros cache s Hok.
  { cbn. by rewrite !app_nil_r. }
  cbn [for_movies staged]. unfold bind at 1.
  destruct (session_get_spec (item_id m) s Hok)
    as [(m0 & -> & Hin) | [(e & -> & Ec) | (st & found & s1 & Ec & -> & He & Ht & Hg & Hm & Hok1 & Hk & Hf)]].
  - rewrite bool_decide_true by done. by apply IH.
  - split; [done |].
    pose proof (commit_tables_app (tx s) (new_genres s) (new_movies s)
      (staged (m :: batch) (known s) cache).1 (staged (m :: batch) (known s) cache).2) as H.
    rewrite Ec in H. exact H.
  - subst st.
    pose proof (commit_tables_app (tx s) (new_genres s) (new_movies s)) as Happ.
    rewrite Ec in Happ.
    destruct found as [m0|].
    + rewrite bool_decide_true by (apply Hf; by eexists).
      specialize (IH cache s1 Hok1). rewrite Hk, Hg, Hm in IH. cbn [app] in IH.
      rewrite Happ, <- He.
      destruct (for_movies batch cache s1) as [[c|e] s']; exact IH.
    + rewrite bool_decide_false by (intros H%Hf; by destruct H).
      unfold bind. rewrite for_genre_ids_spec. cbn [fst snd app].
      unfold session_add_movie. cbn [engine tx identity_map new_genres new_movies].
      rewrite Hg, Hm. cbn [app].
      destruct (link_genres (get_genre_ids m) cache) as [[c created] linked] eqn:El.
      cbn [fst snd].
      set (s3 := {| engine := engine s1; tx := tx s1; identity_map := identity_map s1;
                    new_genres := created; new_movies := [(new_movie m, linked)] |}).
      assert (Hok3 : session_ok s3) by (destruct Hok1; by split).
      specialize (IH c s3 Hok3).
      assert (Hst : staged batch (known s3) c = staged batch (item_id m :: known s) c).
      { apply staged_ext. intros i. unfold known at 1. cbn.
        rewrite <- Hk. unfold known. rewrite Hm. cbn. rewrite app_nil_r.
        rewrite elem_of_app, !elem_of_cons, elem_of_nil. tauto. }
      rewrite Hst in IH.
      destruct (staged batch (item_id m :: known s) c) as [gs' ms'].
      cbn [fst snd] in *. rewrite Happ, <- He.
      subst s3. cbn [engine tx identity_map new_genres new_movies] in IH.
      destruct (for_movies batch c _) as [[c'|e] s']; exact IH.
Qed.

Lemma session_ok_new db : reachable db = true -> session_ok (Session_ db).
Proof. intros H. split; [done |]. intros i m. cbn. by rewrite lookup_empty. Qed.

Lemma save_batch_to_db_session_eq batch db :
  reachable db = true ->
  save_batch_to_db_session batch (Session_ db)
  = (for_movies batch (genre_dict (genres (committed db))) ;;; session_commit)
      (Session_ db).
Proof.
  intros Hr. unfold save_batch_to_db_session, query_all_genres.
  unfold bind at 1 2 3. unfold connect, ret, raise. cbn [engine Session_].
  rewrite Hr, flush_eq. cbn [tx new_genres new_movies Session_ identity_map engine].
  rewrite commit_tables_nil. reflexivity.
Qed.

(** [save_batch_to_db] against the reference description: the call
    commits the store extended by what [staged_for] lists, or raises
    and leaves the store as it was. *)
Lemma save_batch_to_db_spec batch db :
  (reachable db = false ->
     save_batch_to_db batch db = (Raise OperationalError, db, []))
  /\ (reachable db = true ->
      match commit_tables (committed db) (staged_for batch (committed db)).1
              (staged_for batch (committed db)).2 with
      | Ok st =>
          save_batch_to_db batch db
          = (Ok tt, {| reachable := true; committed := st |},
             [Print (Inserted (length batch))])
      | Raise _ => exists e, save_batch_to_db batch db = (Raise e, db, [])
      end).
Proof.
  unfold save_batch_to_db. split; intros Hr.
  - unfold save_batch_to_db_session, query_all_genres, bind, connect, ret, raise.
    cbn. by rewrite Hr.
  - rewrite save_batch_to_db_session_eq by done. unfold bind.
    pose proof (for_movies_spec batch (genre_dict (genres (committed db)))
                  (Session_ db) (session_ok_new db Hr)) as H.
    unfold known in H. cbn [tx new_genres new_movies Session_ app map] in H.
    rewrite app_nil_r in H. fold (staged_for batch (committed db)) in H.
    destruct (for_movies batch _ (Session_ db)) as [[c|e] s'].
    + destruct H as (He & [Hr' _] & Hc).
      unfold session_commit, bind, connect, ret, raise. rewrite Hr', flush_eq, Hc.
      destruct (commit_tables (committed db) _ _) as [st|e'].
      * cbn. by rewrite Hr'.
      * exists e'. cbn in He. by rewrite He.
    + destruct H as (He & e' & ->). exists e. cbn in He. by rewrite He.
Qed.

Lemma staged_all_known batch known cache :
  (forall m, m ∈ batch -> item_id m ∈ known) ->
  staged batch known cache = ([], []).
Proof.
  induction batch as [|m batch IH]; intros H; cbn; [done |].
  rewrite bool_decide_true by apply H, list_elem_of_here.
  apply IH. intros m' Hm'. apply H, list_elem_of_further, Hm'.
Qed.

(** Every identifier of the batch is known before the call or staged
    by it; the staged movies are new, pairwise distinct, and come from
    the batch. *)
Lemma staged_covers batch known cache m :
  m ∈ batch ->
  item_id m ∈ known ++ map (fun p => id p.1) (staged batch known cache).2.
Proof.
  revert known cache. induction batch as [|m' batch IH]; intros known cache;
    [by intros ?%elem_of_nil |].
  cbn [staged]. intros [-> | Hm]%elem_of_cons.
  - case_bool_decide as Hk; [apply elem_of_app; by left |].
    destruct (link_genres (get_genre_ids m') cache) as [[c created] linked].
    destruct (staged batch (item_id m' :: known) c) as [gs ms].
    cbn. apply elem_of_app. right. apply list_elem_of_here.
  - case_bool_decide as Hk; [by apply IH |].
    destruct (link_genres (get_genre_ids m') cache) as [[c created] linked].
    specialize (IH (item_id m' :: known) c Hm).
    destruct (staged batch (item_id m' :: known) c) as [gs ms].
    cbn in *. apply elem_of_cons in IH as [-> | IH].
    + apply elem_of_app. right. apply list_elem_of_here.
    + apply elem_of_app in IH as [IH | IH]; apply elem_of_app; [by left |].
      right. by apply list_elem_of_further.
Qed.

Lemma staged_new batch known cache :
  NoDup (map (fun p => id p.1) (staged batch known cache).2)
  /\ forall i, i ∈ map (fun p => id p.1) (staged batch known cache).2 ->
       (i ∉ known) /\ (i ∈ map item_id batch).
Proof.
  revert known cache. induction batch as [|m batch IH]; intros known cache.
  { cbn. split; [apply NoDup_nil_2 | by intros i ?%elem_of_nil]. }
  cbn [staged]. case_bool_decide as Hk.
  - destruct (IH known cache) as [I1 I2]. split; [done |].
    intros i Hi. destruct (I2 i Hi). split; [done |].
    cbn. by apply list_elem_of_further.
  - destruct (link_genres (get_genre_ids m) cache) as [[c created] linked].
    destruct (IH (item_id m :: known) c) as [I1 I2].
    destruct (staged batch (item_id m :: known) c) as [gs ms]. cbn in *.
    split.
    + apply NoDup_cons. split; [| done].
      intros Hi. destruct (I2 _ Hi) as [Hn _]. apply Hn, list_elem_of_here.
    + intros i [-> | Hi]%elem_of_cons.
      * split; [done | apply list_elem_of_here].
      * destruct (I2 i Hi) as [Hn Hb]. split.
        -- intros Hik. apply Hn. by apply list_elem_of_further.
        -- by apply list_elem_of_further.
Qed.

Lemma staged_first_occurrences batch seen known cache :
  (forall i, i ∈ seen -> i ∈ known) ->
  staged (first_occurrences seen batch) known cache = staged batch known cache.
Proof.
  revert seen known cache.
  induction batch as [|m batch IH]; intros seen known cache Hs; [done |].
  cbn [first_occurrences staged].
  case_bool_decide as Hseen.
  - rewrite bool_decide_true by auto. by apply IH.
  - cbn [staged]. case_bool_decide as Hk.
    + apply IH. intros i [-> | Hi]%elem_of_cons; auto.
    + destruct (link_genres (get_genre_ids m) cache) as [[c created] linked].
      rewrite (IH (item_id m :: seen) (item_id m :: known) c); [done |].
      intros i. rewrite !elem_of_cons. intros [-> | Hi]; auto.
Qed.

(** The call returns, one way or the other. *)
Lemma save_batch_to_db_total batch db :
  (exists e, save_batch_to_db batch db = (Raise e, db, []))
  \/ (reachable db = true /\
      save_batch_to_db batch db =
      (Ok tt,
       {| reachable := true;
          committed := extended (committed db) (staged_for batch (committed db)).1
                         (staged_for batch (committed db)).2 |},
       [Print (Inserted (length batch))])).
Proof.
  destruct (save_batch_to_db_spec batch db) as [H0 H1].
  destruct (reachable db) eqn:Hr; [| left; eexists; by apply H0].
  specialize (H1 eq_refl).
  destruct (commit_tables _ _ _) as [st|e] eqn:Ec; [| by left].
  right. split; [done |]. by rewrite <- (commit_tables_Ok _ _ _ _ Ec).
Qed.

Lemma save_batch_to_db_Ok batch db db' evs :
  save_batch_to_db batch db = (Ok tt, db', evs) ->
  reachable db = true
  /\ commit_tables (committed db) (staged_for batch (committed db)).1
       (staged_for batch (committed db)).2 = Ok (committed db')
  /\ db' = {| reachable := true;
              committed := extended (committed db) (staged_for batch (committed db)).1
                             (staged_for batch (committed db)).2 |}
  /\ evs = [Print (Inserted (length batch))].
Proof.
  intros H. destruct (save_batch_to_db_spec batch db) as [H0 H1].
  destruct (reachable db) eqn:Hr; [| rewrite H0 in H by done; done].
  specialize (H1 eq_refl).
  destruct (commit_tables _ _ _) as [st|e] eqn:Ec.
  - rewrite H1 in H. injection H as <- <-.
    cbn. by rewrite <- (commit_tables_Ok _ _ _ _ Ec).
  - destruct H1 as [e' H1]. rewrite H1 in H. done.
Qed.

Section InsertedRows.
Context {R K : Type} `{EqDecision K}.
Variable key : R -> K.
Variable types_ok : R -> bool.

(** Rows that were all accepted have pairwise distinct keys, none of
    which was in the table. *)
Lemma insert_many_rows_NoDup rows (t t' : list R) :
  insert_many key types_ok rows t = Ok t' ->
  NoDup (map key rows) /\ forall x, x ∈ map key rows -> x ∉ map key t.
Proof.
  revert t. induction rows as [|r rows IH]; intros t; cbn.
  { intros _. split; [apply NoDup_nil_2 | by intros x ?%elem_of_nil]. }
  destruct (insert_row key types_ok r t) as [t1|] eqn:E; [| done].
  apply insert_row_Ok in E as [-> Hk]. intros [Hn Hd]%IH.
  split.
  - apply NoDup_cons. split; [| done].
    intros Hr. apply (Hd _ Hr). rewrite map_app. apply elem_of_app. right.
    apply list_elem_of_here.
  - intros x [-> | Hx]%elem_of_cons; [done |].
    intros Hxt. apply (Hd _ Hx). rewrite map_app. apply elem_of_app. by left.
Qed.
End InsertedRows.

Lemma genre_dict_keyed all : cache_keyed (genre_dict all).
Proof.
  unfold genre_dict.
  assert (H : forall d, cache_keyed d ->
            cache_keyed (foldl (fun d g => <[genre_id g := g]> d) d all)).
  { induction all as [|g all IH]; intros d Hd; [done |]. cbn. apply IH.
    intros k g'. destruct (decide (genre_id g = k)) as [<- | Hne].
    - rewrite lookup_insert_eq. by intros [= <-].
    - rewrite lookup_insert_ne by done. apply Hd. }
  apply H. intros k g. by rewrite lookup_empty.
Qed.

Lemma link_genres_keyed gids cache :
  cache_keyed cache ->
  cache_keyed (link_genres gids cache).1.1
  /\ map genre_id (link_genres gids cache).2 = gids.
Proof.
  revert cache. induction gids as [|gid gids IH]; intros cache Hc; cbn [link_genres].
  { done. }
  destruct (cache !! gid) as [g|] eqn:E.
  - destruct (IH cache Hc) as [I1 I2].
    destruct (link_genres gids cache) as [[c created] linked]. cbn in *.
    split; [done |]. by rewrite (Hc _ _ E), I2.
  - assert (Hc' : cache_keyed (<[gid := new_genre gid]> cache)).
    { intros k g'. destruct (decide (gid = k)) as [<- | Hne].
      - rewrite lookup_insert_eq. by intros [= <-].
      - rewrite lookup_insert_ne by done. apply Hc. }
    destruct (IH _ Hc') as [I1 I2].
    destruct (link_genres gids (<[gid := new_genre gid]> cache)) as [[c created] linked].
    cbn in *. split; [done |]. by rewrite I2.
Qed.

(** A movie staged for an item of the batch carries one association
    row per element of the item's [genre_ids], repeats included. *)
Lemma staged_genre_ids batch known cache m :
  cache_keyed cache ->
  m ∈ first_occurrences known batch ->
  exists linked,
    (new_movie m, linked) ∈ (staged batch known cache).2
    /\ map genre_id linked = get_genre_ids m.
Proof.
  revert known cache. induction batch as [|m' batch IH]; intros known cache Hc;
    cbn [first_occurrences staged]; [by intros ?%elem_of_nil |].
  case_bool_decide as Hk; [by apply IH |].
  destruct (link_genres_keyed (get_genre_ids m') cache Hc) as [Hc' Hl].
  destruct (link_genres (get_genre_ids m') cache) as [[c created] linked] eqn:El.
  cbn [fst snd] in *. intros [-> | Hm]%elem_of_cons.
  - exists linked. destruct (staged batch (item_id m' :: known) c) as [gs ms].
    split; [apply list_elem_of_here | done].
  - destruct (IH (item_id m' :: known) c Hc' Hm) as (l & Hin & Hl').
    exists l. destruct (staged batch (item_id m' :: known) c) as [gs ms].
    split; [by apply list_elem_of_further | done].
Qed.

(** A new item whose [genre_ids] repeats an identifier makes the call
    raise, whatever else the batch holds, and nothing is committed. *)
Lemma repeated_genre_ids_never_commit batch db m :
  m ∈ first_occurrences (map id (movies (committed db))) batch ->
  ~ NoDup (get_genre_ids m) ->
  exists e, save_batch_to_db batch db = (Raise e, db, []).
Proof.
  intros Hm Hdup.
  destruct (save_batch_to_db_total batch db) as [H | [Hr H]]; [done |].
  exfalso. apply save_batch_to_db_Ok in H as (_ & Hc & _ & _).
  unfold staged_for in Hc.
  destruct (staged_genre_ids batch _ (genre_dict (genres (committed db))) m
              (genre_dict_keyed _) Hm) as (linked & Hin & Hl).
  destruct (staged batch _ _) as [gs ms]. cbn [fst snd] in *.
  unfold commit_tables in Hc.
  destruct (insert_many genre_id _ _ _); [| done].
  destruct (insert_many id _ _ _); [| done].
  destruct (insert_many _ pair_types_ok _ _) as [pt|] eqn:Ep; [| done].
  apply insert_many_rows_NoDup in Ep as [Hn _]. rewrite map_id in Hn.
  apply list_elem_of_split in Hin as (ms1 & ms2 & ->).
  rewrite flat_map_app in Hn. cbn [flat_map] in Hn.
  apply NoDup_app in Hn as (_ & _ & Hn). apply NoDup_app in Hn as (Hn & _ & _).
  apply Hdup. rewrite <- Hl. unfold assoc_rows in Hn. cbn [fst snd] in Hn.
  apply (NoDup_fmap_1 (fun gid => (id (new_movie m), gid))).
  by rewrite <- list_fmap_compose.
Qed.

(** A store whose association pairs were unique keeps them unique
    through every successful call. *)
Lemma association_pairs_stay_unique batch db db' evs :
  save_batch_to_db batch db = (Ok tt, db', evs) ->
  NoDup (movies_genres (committed db)) ->
  NoDup (movies_genres (committed db')).
Proof.
  intros (_ & Hc & _ & _)%save_batch_to_db_Ok Hn.
  unfold commit_tables in Hc.
  destruct (insert_many genre_id _ _ _); [| done].
  destruct (insert_many id _ _ _); [| done].
  destruct (insert_many _ pair_types_ok _ _) as [pt|] eqn:Ep; [| done].
  injection Hc as <-. cbn.
  apply insert_many_NoDup in Ep; rewrite ?map_id in *; done.
Qed.

(** C3.  After a successful call, a second call on the same batch
    stages nothing: no movie, no genre, no association row; it succeeds
    and leaves the database exactly as the first call left it. *)
Theorem persist_idempotent
    (batch : list CatalogItem) (db db' : Database) (evs : list event) :
  save_batch_to_db batch db = (Ok tt, db', evs) ->
  staged_for batch (committed db') = ([], [])
  /\ save_batch_to_db batch db' = (Ok tt, db', evs).
Proof.
  intros H. apply save_batch_to_db_Ok in H as (Hr & Hc & -> & ->).
  set (st := extended _ _ _) in *.
  assert (Hs : staged_for batch st = ([], [])).
  { unfold staged_for. apply staged_all_known. intros m Hm.
    subst st. unfold extended. cbn [movies]. rewrite map_app, map_map.
    apply (staged_covers batch _ (genre_dict (genres (committed db))) m Hm). }
  split; [done |].
  destruct (save_batch_to_db_spec batch {| reachable := true; committed := st |})
    as [_ H1].
  specialize (H1 eq_refl). cbn [committed] in H1.
  rewrite Hs in H1. cbn [fst snd] in H1. by rewrite commit_tables_nil in H1.
Qed.

(** C9.  A later occurrence of an identifier in the batch changes
    nothing: the call on the batch and the call on the batch without
    the later occurrences succeed together and commit the same
    database.  In the database a successful call commits, the new
    movies have pairwise distinct identifiers, none of which was in the
    store, so a store whose identifiers were unique keeps them
    unique. *)
Theorem intra_batch_duplicates (batch : list CatalogItem) (db : Database) :
  (forall db',
     (exists evs, save_batch_to_db batch db = (Ok tt, db', evs)) <->
     (exists evs, save_batch_to_db (first_occurrences [] batch) db = (Ok tt, db', evs)))
  /\ (forall db' evs,
        save_batch_to_db batch db = (Ok tt, db', evs) ->
        exists new,
          movies (committed db') = movies (committed db) ++ new
          /\ NoDup (map id new)
          /\ (forall i, i ∈ map id new ->
                (i ∉ map id (movies (committed db))) /\ (i ∈ map item_id batch))
          /\ (NoDup (map id (movies (committed db))) ->
              NoDup (map id (movies (committed db'))))).
Proof.
  assert (Hst : forall st, staged_for (first_occurrences [] batch) st = staged_for batch st).
  { intros st. unfold staged_for. apply staged_first_occurrences.
    by intros i ?%elem_of_nil. }
  split.
  - intros db'. split; intros [evs H].
    + apply save_batch_to_db_Ok in H as (Hr & Hc & -> & ->).
      destruct (save_batch_to_db_total (first_occurrences [] batch) db)
        as [[e He] | [_ He]].
      * destruct (save_batch_to_db_spec (first_occurrences [] batch) db) as [_ H1].
        specialize (H1 Hr). rewrite Hst, Hc in H1. rewrite H1 in He. done.
      * rewrite Hst in He. by eexists.
    + apply save_batch_to_db_Ok in H as (Hr & Hc & -> & ->).
      rewrite Hst in *.
      destruct (save_batch_to_db_total batch db) as [[e He] | [_ He]].
      * destruct (save_batch_to_db_spec batch db) as [_ H1].
        specialize (H1 Hr). rewrite Hc in H1. rewrite H1 in He. done.
      * by eexists.
  - intros db' evs H. apply save_batch_to_db_Ok in H as (Hr & Hc & -> & ->).
    destruct (staged_new batch (map id (movies (committed db)))
                (genre_dict (genres (committed db)))) as [N1 N2].
    fold (staged_for batch (committed db)) in N1, N2.
    exists (map fst (staged_for batch (committed db)).2).
    cbn [committed extended movies]. rewrite map_map.
    split; [done | split; [done | split]].
    + exact N2.
    + intros Hn. rewrite map_app, map_map. apply NoDup_app.
      split; [done | split; [| done]].
      intros i Hi Hi'. destruct (N2 i Hi') as [Hn' _]. done.
Qed.

(** C4.  A call of [save_batch_to_db] either raises, and then the
    database is the one it was given, or returns, and then the
    database is the one it was given extended by every genre, movie
    and association row the call staged, committed together.  When the
    call raises inside a round of [main]'s loop, the loop ends there
    with that exception, and [main] ends with the exception's
    traceback: no further batch is fetched. *)
Theorem persistence_all_or_nothing
    (srv : remote) (max_pages size page : Z) (w : World) (fuel : nat)
    (batch : list CatalogItem) :
  ((exists e, save_batch_to_db batch (db w) = (Raise e, db w, []))
   \/ save_batch_to_db batch (db w) =
      (Ok tt,
       {| reachable := true;
          committed :=
            extended (committed (db w)) (staged_for batch (committed (db w))).1
              (staged_for batch (committed (db w))).2 |},
       [Print (Inserted (length batch))]))
  /\ (forall e,
        page <= max_pages ->
        batch <> [] ->
        (fetch_movies_batch srv page size).1 = batch ->
        save_batch_to_db batch (db w) = (Raise e, db w, []) ->
        while_pages (S fuel) srv max_pages size page w =
        Some (Raise e,
              {| fs := save_to_csv batch default_filename (fs w); db := db w |},
              Print (Processing page) :: (fetch_movies_batch srv page size).2))
  /\ (forall e w' evs,
        while_pages (S (Z.to_nat max_pages)) srv max_pages size 1 w
          = Some (Raise e, w', evs) ->
        pipeline srv max_pages size w =
        Some (Raise e, w',
              [Print Starting; Print Connected] ++ evs ++ [Traceback e])).
Proof.
  split; [| split].
  - destruct (save_batch_to_db_total batch (db w)) as [H | [_ H]]; [by left | by right].
  - intros e Hp Hne Hb Hs. cbn [while_pages].
    rewrite (proj2 (Z.leb_le _ _) Hp). cbn [negb]. unfold while_body.
    destruct (fetch_movies_batch srv page size) as [b evs]. cbn [fst snd] in *.
    subst b. destruct batch as [|m batch]; [done |].
    rewrite Hs. by rewrite app_nil_r.
  - intros e w' evs H. unfold pipeline. by rewrite H.
Qed.

(** C2, at the failing input.  On an empty store, the batch of one
    item with [genre_ids = [1, 1, 2]] makes the call raise the
    integrity error of the composite primary key and commit nothing;
    with [genre_ids = [1, 2]] the same item is stored with its two
    association rows. *)
Theorem repeated_genre_id_raises :
  save_batch_to_db [sample_item 7 (Some "1995-12-15") [1; 1; 2]] empty_db
    = (Raise IntegrityError, empty_db, [])
  /\ (movies_genres (committed
        (save_batch_to_db [sample_item 7 (Some "1995-12-15") [1; 2]] empty_db).1.2)
      = [(7, 1); (7, 2)]).
Proof. split; vm_compute; reflexivity. Qed.

(** ** The driver *)

Lemma while_pages_step fuel srv max_pages size page w :
  page <= max_pages ->
  while_pages (S fuel) srv max_pages size page w =
  match while_body srv max_pages size page w with
  | (Stop_, w', evs) => Some (Ok tt, w', evs)
  | (Raised_ e, w', evs) => Some (Raise e, w', evs)
  | (Continue_ page', w', evs) =>
      match while_pages fuel srv max_pages size page' w' with
      | Some (r, w'', evs') => Some (r, w'', evs ++ evs')
      | None => None
      end
  end.
Proof.
  intros Hp. cbn [while_pages]. by rewrite (proj2 (Z.leb_le _ _) Hp).
Qed.

Lemma while_body_continue srv max_pages size page w page' w' evs :
  while_body srv max_pages size page w = (Continue_ page', w', evs) ->
  page' = page + size /\ (fetch_movies_batch srv page size).1 <> [].
Proof.
  unfold while_body. destruct (fetch_movies_batch srv page size) as [[|m b] evs0];
    [done |].
  destruct (save_batch_to_db (m :: b) (db w)) as [[[u|e] db'] evs']; [| done].
  by intros [= <- <- <-].
Qed.

Lemma fetch_nonempty_size srv page size :
  (fetch_movies_batch srv page size).1 <> [] -> 0 < size.
Proof.
  unfold fetch_movies_batch, range. intros H.
  destruct (Z.lt_ge_cases 0 size) as [? | Hle]; [done |].
  rewrite seqZ_nil in H by lia. done.
Qed.

(** The fuel [pipeline] gives is enough: every round that goes on
    moves the cursor forward. *)
Lemma while_pages_enough_fuel srv max_pages size fuel page w :
  (Z.to_nat (max_pages - page + 1) < fuel)%nat ->
  is_Some (while_pages fuel srv max_pages size page w).
Proof.
  revert page w. induction fuel as [|fuel IH]; intros page w Hf; [lia |].
  destruct (Z.le_gt_cases page max_pages) as [Hp | Hp].
  - rewrite while_pages_step by done.
    destruct (while_body srv max_pages size page w) as [[[page'| |e] w'] evs] eqn:E;
      [| by eexists | by eexists].
    apply while_body_continue in E as [-> Hne%fetch_nonempty_size].
    destruct (IH (page + size) w') as [[[r w''] evs'] ->]; [lia | by eexists].
  - cbn [while_pages]. rewrite (proj2 (Z.leb_gt _ _) Hp). by eexists.
Qed.

Lemma pipeline_total srv max_pages size w :
  is_Some (pipeline srv max_pages size w).
Proof.
  unfold pipeline.
  destruct (while_pages_enough_fuel srv max_pages size (S (Z.to_nat max_pages)) 1 w)
    as [[[[u|e] w'] evs] ->]; [lia | by eexists | by eexists].
Qed.

(** [main] returns: the loop never runs out of fuel. *)
Lemma main_total srv w : is_Some (main srv w).
Proof. apply pipeline_total. Qed.

(** C1, as amended.  Once a page of the batch comes to the end of the
    data, the collector stops at once: it returns what the earlier pages
    of the batch gave and requests no page after that one in this
    batch.  The driver attempts no further batch when the batch so
    returned is empty.  When the batch had accumulated items, the
    driver mirrors and persists it and, the call having succeeded, goes
    on with the round at cursor plus batch size. *)
Theorem end_of_data_stops_batch
    (srv : remote) (max_pages size page k : Z) (w : World) (fuel : nat) :
  page <= max_pages ->
  page <= k < page + size ->
  (forall p, page <= p < k -> outcome_of srv p <> EndOfData) ->
  outcome_of srv k = EndOfData ->
  let batch := flat_map (fun p => items_of (outcome_of srv p)) (range page k) in
  let evs := (fetch_movies_batch srv page size).2 in
  (fetch_movies_batch srv page size).1 = batch
  /\ (forall p, p ∈ requested evs -> page <= p <= k)
  /\ (batch = [] ->
      while_pages (S fuel) srv max_pages size page w
      = Some (Ok tt, w, Print (Processing page) :: evs))
  /\ (batch <> [] ->
      forall db' evs',
        save_batch_to_db batch (db w) = (Ok tt, db', evs') ->
        while_pages (S fuel) srv max_pages size page w =
        match while_pages fuel srv max_pages size (page + size)
                {| fs := save_to_csv batch default_filename (fs w); db := db' |} with
        | Some (r, w'', evs'') =>
            Some (r, w'', (Print (Processing page) :: evs ++ evs') ++ evs'')
        | None => None
        end).
Proof.
  intros Hp Hk Hpre Hend batch evs.
  destruct (fetch_until srv page size k Hk Hpre Hend) as [I1 I2].
  fold batch in I1. split; [done |]. split; [done |].
  subst evs. split.
  - intros Hb. rewrite while_pages_step by done. unfold while_body.
    destruct (fetch_movies_batch srv page size) as [b evs0]. cbn [fst snd] in *.
    by rewrite I1, Hb.
  - intros Hb db' evs' Hs. rewrite while_pages_step by done. unfold while_body.
    destruct (fetch_movies_batch srv page size) as [b evs0]. cbn [fst snd] in *.
    rewrite I1. destruct batch as [|m batch']; [done |]. by rewrite Hs.
Qed.

(** ** The statements at sample inputs *)

Example parse_strict :
  parse_date_safe (Some "2021-02-28") = Some (Date 2021 2 28).
Proof. reflexivity. Qed.

Example parse_leap_day :
  parse_date_safe (Some "2024-02-29") = Some (Date 2024 2 29)
  /\ parse_date_safe (Some "2023-02-29") = None.
Proof. split; reflexivity. Qed.

Example parse_rejects :
  parse_date_safe (Some "") = None
  /\ parse_date_safe (Some "2021-02-281") = None
  /\ parse_date_safe (Some "2021-13-01") = None
  /\ parse_date_safe (Some "0000-01-01") = None
  /\ parse_date_safe (Some "21-02-28") = None.
Proof. repeat split; reflexivity. Qed.

Example spellings_of_a_date :
  spellings (Date 2020 1 5) =
  ["2020-01-05"; "2020-01-5"; "2020-01- 5"; "2020-1-05"; "2020-1-5"; "2020-1- 5"].
Proof. reflexivity. Qed.

Example fetch_one_page :
  fetch_movies_batch one_page_catalog 1 5 =
  ([sample_item 7 (Some "1995-12-15") [1; 2]],
   [Print (Fetching 1); Get 1; Sleep 400; Print (Fetching 2); Get 2]).
Proof. reflexivity. Qed.

Example main_one_page :
  (fun x => (x.1.1, requested x.2)) <$> main one_page_catalog empty_world
  = Some (Ok tt, [1; 2; 6]).
Proof. vm_compute. reflexivity. Qed.

Example main_repeated_genre :
  (fun x => (x.1.1, committed (db x.1.2), requested x.2))
    <$> main repeated_genre_catalog empty_world
  = Some (Raise IntegrityError, empty_store, [1; 2]).
Proof. vm_compute. reflexivity. Qed.

(** C1, as stated, fails: page 2 is the end of the data, the batch of
    pages 1 to 5 had accumulated the item of page 1, and [main] goes on
    to a second batch and requests page 6. *)
Lemma next_batch_after_end_of_data :
  outcome_of one_page_catalog 2 = EndOfData
  /\ (fun x => requested x.2) <$> main one_page_catalog empty_world
     = Some [1; 2; 6].
Proof. split; vm_compute; reflexivity. Qed.

(** C1, as amended, on the one-page catalog: page 2 ends the first batch. *)
Lemma end_of_data_stops_batch_witness :
  1 <= 100 /\ 1 <= 2 < 1 + 5
  /\ outcome_of one_page_catalog 2 = EndOfData
  /\ (fetch_movies_batch one_page_catalog 1 5).1
     = flat_map (fun p => items_of (outcome_of one_page_catalog p)) (range 1 2).
Proof.
  split; [lia |]. split; [lia |]. split; [reflexivity |].
  apply (end_of_data_stops_batch one_page_catalog 100 5 1 2 empty_world 0).
  - lia.
  - lia.
  - intros p Hp. replace p with 1 by lia. vm_compute. discriminate.
  - reflexivity.
Defined.

(** C3 on a batch of one item and the empty store. *)
Lemma persist_idempotent_witness :
  let batch := [sample_item 7 (Some "1995-12-15") [1; 2]] in
  let r := save_batch_to_db batch empty_db in
  r = (Ok tt, r.1.2, r.2)
  /\ save_batch_to_db batch r.1.2 = (Ok tt, r.1.2, r.2).
Proof.
  intros batch r.
  assert (H : r = (Ok tt, r.1.2, r.2)) by (vm_compute; reflexivity).
  split; [exact H |].
  apply (persist_idempotent batch empty_db r.1.2 r.2 H).
Defined.

(** C4 on the catalog whose item repeats a genre identifier: the first
    round raises and the loop ends. *)
Lemma persistence_all_or_nothing_witness :
  let batch := [sample_item 7 (Some "1995-12-15") [1; 1; 2]] in
  while_pages 1 repeated_genre_catalog 100 5 1 empty_world =
  Some (Raise IntegrityError,
        {| fs := save_to_csv batch default_filename ∅; db := empty_db |},
        Print (Processing 1) :: (fetch_movies_batch repeated_genre_catalog 1 5).2).
Proof.
  intros batch.
  apply (persistence_all_or_nothing repeated_genre_catalog 100 5 1 empty_world 0 batch).
  - lia.
  - discriminate.
  - vm_compute. reflexivity.
  - vm_compute. reflexivity.
Defined.

(** C5 on the one-page catalog. *)
Lemma collector_exact_on_early_termination_witness :
  1 <= 2 < 1 + 5
  /\ outcome_of one_page_catalog 2 = EndOfData
  /\ (fetch_movies_batch one_page_catalog 1 5).1
     = flat_map (fun _ => [sample_item 7 (Some "1995-12-15") [1; 2]]) (range 1 2).
Proof.
  split; [lia |]. split; [reflexivity |].
  apply (collector_exact_on_early_termination one_page_catalog 1 5 2
           (fun _ => [sample_item 7 (Some "1995-12-15") [1; 2]])).
  - lia.
  - intros p Hp. replace p with 1 by lia. reflexivity.
  - reflexivity.
Defined.

(** C6 on the catalog that answers 503 for page 1. *)
Lemma retry_containment_witness :
  (forall a, (a < 3)%nat -> transient_failure (failing_catalog 1 a) = true)
  /\ exists e0 e1 e2,
    for_pages failing_catalog [1; 2] [] =
    ((for_pages failing_catalog [2] []).1,
     [Print (Fetching 1); Get 1; Print (Retrying 1 2 e0); Sleep 2000;
      Print (Fetching 1); Get 1; Print (Retrying 1 1 e1); Sleep 2000;
      Print (Fetching 1); Get 1; Print (Retrying 1 0 e2); Sleep 2000;
      Print (Skipping 1)]
     ++ (for_pages failing_catalog [2] []).2).
Proof.
  split; [intros a _; reflexivity |].
  apply (retry_containment failing_catalog 1 [2] []).
  intros a _. reflexivity.
Defined.



(** C8 on three appends to a file that does not exist. *)
Lemma mirror_header_once_witness :
  let b := [sample_item 7 (Some "1995-12-15") [1; 2]] in
  appends [b; b; b] default_filename ∅ !! default_filename
    = Some (header :: flat_map (map movie_row) [b; b; b])
  /\ count_header (header :: flat_map (map movie_row) [b; b; b]) = 1%nat.
Proof.
  intros b.
  apply (proj1 (mirror_header_once [b; b; b] default_filename ∅)).
  - reflexivity.
  - discriminate.
Defined.

(** C9 on a batch that holds identifier 7 twice. *)
Lemma intra_batch_duplicates_witness :
  let a := sample_item 7 (Some "1995-12-15") [1; 2] in
  let b := sample_item 7 None [3] in
  let r := save_batch_to_db [a; b] empty_db in
  r = (Ok tt, r.1.2, r.2)
  /\ exists new,
       movies (committed r.1.2) = movies (committed empty_db) ++ new
       /\ NoDup (map id new)
       /\ (forall i, i ∈ map id new ->
             (i ∉ map id (movies (committed empty_db)))
             /\ (i ∈ map item_id [a; b]))
       /\ (NoDup (map id (movies (committed empty_db))) ->
           NoDup (map id (movies (committed r.1.2)))).
Proof.
  intros a b r.
  assert (H : r = (Ok tt, r.1.2, r.2)) by (vm_compute; reflexivity).
  split; [exact H |].
  apply (proj2 (intra_batch_duplicates [a; b] empty_db) r.1.2 r.2 H).
Defined.

(** C10 on a file that does not exist. *)
Lemma mirror_empty_batch_witness :
  (∅ : filesystem) !! default_filename = None
  /\ save_to_csv [] default_filename ∅ = <[default_filename := [header]]> ∅.
Proof.
  split; [reflexivity |].
  apply (proj1 (mirror_empty_batch default_filename ∅)). reflexivity.
Defined.

Example duplicate_in_batch_commits_one_row :
  (fun d => map id (movies (committed d)))
    (save_batch_to_db [sample_item 7 (Some "1995-12-15") [1; 2];
                       sample_item 7 None [3]] empty_db).1.2
  = [7].
Proof. vm_compute. reflexivity. Qed.

(** * Further properties *)

(** ** The collector, for every catalog *)

Lemma for_pages_read srv pages movies :
  (for_pages srv pages movies).1
  = movies ++ flat_map (fun p => items_of (outcome_of srv p)) (pages_read srv pages).
Proof.
  revert movies. induction pages as [|q pages IH]; intros movies;
    cbn [for_pages pages_read flat_map]; [by rewrite app_nil_r |].
  pose proof (while_retries_exit srv q 3 0 movies) as E.
  fold (outcome_of srv q) in E. revert E.
  destruct (while_retries srv q 3 0 movies) as [x evs]. cbn [fst]. intros ->.
  destruct (outcome_of srv q) as [rs| |] eqn:Oq; cbn [exit_of].
  - specialize (IH (movies ++ rs)).
    destruct (for_pages srv pages (movies ++ rs)) as [r evs']. cbn [fst] in *.
    rewrite IH. cbn [flat_map]. rewrite Oq. cbn [items_of]. by rewrite <- app_assoc.
  - by rewrite app_nil_r.
  - specialize (IH movies). by destruct (for_pages srv pages movies) as [r evs'].
Qed.

(** X1.  The batch is the results of the pages that answered with
    results before the first end-of-data page of the range, joined in
    page order; a page abandoned after its retries adds nothing and
    does not stop the collection. *)
Theorem fetch_collects_pages_read (srv : remote) (start_page pages_per_batch : Z) :
  (fetch_movies_batch srv start_page pages_per_batch).1
  = flat_map (fun p => items_of (outcome_of srv p))
      (pages_read srv (range start_page (start_page + pages_per_batch))).
Proof. unfold fetch_movies_batch. by rewrite for_pages_read. Qed.

Lemma slept_app evs1 evs2 : slept (evs1 ++ evs2) = slept evs1 + slept evs2.
Proof.
  induction evs1 as [|e evs1 IH]; [done |]. cbn [app]. unfold slept in *.
  cbn [foldr]. destruct e; lia.
Qed.

Lemma while_retries_effort srv page retries attempt movies :
  (length (requested (while_retries srv page retries attempt movies).2) <= retries)%nat
  /\ 0 <= slept (while_retries srv page retries attempt movies).2
       <= 2000 * Z.of_nat retries.
Proof.
  revert attempt. induction retries as [|n IH]; intros attempt; cbn [while_retries].
  { cbn. lia. }
  destruct (try_results (srv page attempt)) as [[|r rs]|e].
  - cbn. lia.
  - cbn. lia.
  - specialize (IH (S attempt)).
    destruct (while_retries srv page n (S attempt) movies) as [x evs].
    cbn [snd] in *. rewrite requested_app, length_app, slept_app.
    cbn -[Z.mul Z.of_nat]. lia.
Qed.

Lemma for_pages_effort srv pages movies :
  (length (requested (for_pages srv pages movies).2) <= 3 * length pages)%nat
  /\ 0 <= slept (for_pages srv pages movies).2 <= 6000 * Z.of_nat (length pages).
Proof.
  revert movies. induction pages as [|q pages IH]; intros movies; cbn [for_pages].
  { cbn. lia. }
  pose proof (while_retries_effort srv q 3 0 movies) as E. revert E.
  destruct (while_retries srv q 3 0 movies) as [[m'|m'|m'] evs]; cbn [snd length];
    intros [E1 E2].
  - lia.
  - specialize (IH m'). destruct (for_pages srv pages m') as [r evs'].
    cbn [snd] in *. rewrite requested_app, length_app, slept_app. lia.
  - specialize (IH m'). destruct (for_pages srv pages m') as [r evs'].
    cbn [snd] in *. rewrite requested_app, length_app, slept_app. lia.
Qed.

Lemma length_range start stop : Z.of_nat (length (range start stop)) = Z.max 0 (stop - start).
Proof. unfold range. rewrite length_seqZ. lia. Qed.

(** X2.  Whatever the catalog answers, one call makes at most three
    requests per page of the range and sleeps at most six seconds per
    page. *)
Theorem fetch_effort_bounded (srv : remote) (start_page pages_per_batch : Z) :
  Z.of_nat (length (requested (fetch_movies_batch srv start_page pages_per_batch).2))
    <= 3 * Z.max 0 pages_per_batch
  /\ 0 <= slept (fetch_movies_batch srv start_page pages_per_batch).2
       <= 6000 * Z.max 0 pages_per_batch.
Proof.
  unfold fetch_movies_batch.
  destruct (for_pages_effort srv (range start_page (start_page + pages_per_batch)) [])
    as [E1 E2].
  pose proof (length_range start_page (start_page + pages_per_batch)) as L.
  replace (start_page + pages_per_batch - start_page) with pages_per_batch in L by lia.
  split; lia.
Qed.

Lemma while_retries_requests srv page retries attempt movies :
  exists n, requested (while_retries srv page retries attempt movies).2 = replicate n page.
Proof.
  revert attempt. induction retries as [|n IH]; intros attempt; cbn [while_retries].
  { by exists 0%nat. }
  destruct (try_results (srv page attempt)) as [[|r rs]|e].
  - by exists 1%nat.
  - by exists 1%nat.
  - destruct (IH (S attempt)) as [k Hk].
    destruct (while_retries srv page n (S attempt) movies) as [x evs].
    cbn [snd] in *. exists (S k). by rewrite requested_app, Hk.
Qed.

Lemma for_pages_requests srv pages movies :
  StronglySorted Z.le pages ->
  StronglySorted Z.le (requested (for_pages srv pages movies).2)
  /\ forall p, p ∈ requested (for_pages srv pages movies).2 -> p ∈ pages.
Proof.
  revert movies. induction pages as [|q pages IH]; intros movies Hs; cbn [for_pages].
  { cbn. split; [constructor | by intros p ?%elem_of_nil]. }
  apply StronglySorted_inv in Hs as [Hs Hq]. rewrite Forall_forall in Hq.
  destruct (while_retries_requests srv q 3 0 movies) as [n Hn]. revert Hn.
  assert (Hrep : StronglySorted Z.le (replicate n q)).
  { clear. induction n as [|n IH]; cbn; constructor; [done |].
    apply Forall_forall. intros x ->%elem_of_replicate_inv. lia. }
  destruct (while_retries srv q 3 0 movies) as [[m'|m'|m'] evs]; cbn [snd]; intros Hn.
  - rewrite Hn. split; [done |].
    intros p ->%elem_of_replicate_inv. apply list_elem_of_here.
  - destruct (IH m' Hs) as [I1 I2].
    destruct (for_pages srv pages m') as [r evs']. cbn [snd] in *.
    rewrite requested_app, Hn. split.
    + apply StronglySorted_app. split; [| done].
      intros x1 x2 ->%elem_of_replicate_inv Hx2%I2. by apply Hq.
    + intros p [->%elem_of_replicate_inv | Hp%I2]%elem_of_app;
        [apply list_elem_of_here | by apply list_elem_of_further].
  - destruct (IH m' Hs) as [I1 I2].
    destruct (for_pages srv pages m') as [r evs']. cbn [snd] in *.
    rewrite requested_app, Hn. split.
    + apply StronglySorted_app. split; [| done].
      intros x1 x2 ->%elem_of_replicate_inv Hx2%I2. by apply Hq.
    + intros p [->%elem_of_replicate_inv | Hp%I2]%elem_of_app;
        [apply list_elem_of_here | by apply list_elem_of_further].
Qed.

Lemma range_sorted start stop : StronglySorted Z.le (range start stop).
Proof.
  unfold range. remember (Z.to_nat (stop - start)) as n eqn:Hn.
  revert start Hn. induction n as [|n IH]; intros start Hn.
  - rewrite seqZ_nil by lia. constructor.
  - rewrite seqZ_cons by lia. constructor.
    + replace (Z.pred (stop - start)) with (stop - Z.succ start) by lia.
      apply IH. lia.
    + apply Forall_forall. intros x Hx%elem_of_seqZ. lia.
Qed.

Lemma fetch_requests_in_range srv start_page pages_per_batch p :
  p ∈ requested (fetch_movies_batch srv start_page pages_per_batch).2 ->
  start_page <= p < start_page + pages_per_batch.
Proof.
  unfold fetch_movies_batch.
  destruct (for_pages_requests srv (range start_page (start_page + pages_per_batch)) []
              (range_sorted _ _)) as [_ I2].
  by intros Hp%I2%elem_of_range.
Qed.

(** X3.  The pages are requested in ascending order, and only pages of
    the range [start_page .. start_page + pages_per_batch - 1]: once a
    later page is requested no earlier page is requested again. *)
Theorem fetch_requests_in_order (srv : remote) (start_page pages_per_batch : Z) :
  StronglySorted Z.le (requested (fetch_movies_batch srv start_page pages_per_batch).2)
  /\ forall p, p ∈ requested (fetch_movies_batch srv start_page pages_per_batch).2 ->
       start_page <= p < start_page + pages_per_batch.
Proof.
  unfold fetch_movies_batch.
  destruct (for_pages_requests srv (range start_page (start_page + pages_per_batch)) []
              (range_sorted _ _)) as [I1 I2].
  split; [done |]. intros p Hp%I2%elem_of_range. done.
Qed.

Lemma count_sleeps_app ms evs1 evs2 :
  count_sleeps ms (evs1 ++ evs2) = (count_sleeps ms evs1 + count_sleeps ms evs2)%nat.
Proof. unfold count_sleeps. by rewrite List.filter_app, length_app. Qed.

Lemma while_retries_short_sleeps srv page retries attempt movies :
  count_sleeps 400 (while_retries srv page retries attempt movies).2
  = match first_answer srv page retries attempt with Items _ => 1%nat | _ => 0%nat end.
Proof.
  revert attempt. induction retries as [|n IH]; intros attempt;
    cbn [while_retries first_answer]; [done |].
  destruct (try_results (srv page attempt)) as [[|r rs]|e]; [done | done |].
  specialize (IH (S attempt)).
  destruct (while_retries srv page n (S attempt) movies) as [x evs].
  cbn [snd] in *. by rewrite count_sleeps_app, IH.
Qed.

Lemma for_pages_short_sleeps srv pages movies :
  count_sleeps 400 (for_pages srv pages movies).2 = length (pages_read srv pages).
Proof.
  revert movies. induction pages as [|q pages IH]; intros movies;
    cbn [for_pages pages_read]; [done |].
  pose proof (while_retries_exit srv q 3 0 movies) as E.
  pose proof (while_retries_short_sleeps srv q 3 0 movies) as C.
  fold (outcome_of srv q) in E, C. revert E C.
  destruct (while_retries srv q 3 0 movies) as [x evs]. cbn [fst snd]. intros -> C.
  destruct (outcome_of srv q) as [rs| |]; cbn [exit_of].
  - specialize (IH (movies ++ rs)).
    destruct (for_pages srv pages (movies ++ rs)) as [r evs']. cbn [snd] in *.
    rewrite count_sleeps_app, C, IH. done.
  - done.
  - specialize (IH movies).
    destruct (for_pages srv pages movies) as [r evs']. cbn [snd] in *.
    rewrite count_sleeps_app, C, IH. done.
Qed.

(** X4.  The rate-limit delay of 0.4 s is taken once for each page
    whose results entered the batch, and at no other time: not after a
    failed attempt, not after an abandoned page, not after the page
    that is the end of the data. *)
Theorem fetch_rate_limit_delay (srv : remote) (start_page pages_per_batch : Z) :
  count_sleeps 400 (fetch_movies_batch srv start_page pages_per_batch).2
  = length (pages_read srv (range start_page (start_page + pages_per_batch))).
Proof. unfold fetch_movies_batch. apply for_pages_short_sleeps. Qed.

(** ** The mirror file, for every sequence of appends *)


Lemma length_batches_rows batches :
  length (flat_map (map movie_row) batches) = length (concat batches).
Proof.
  induction batches as [|b bs IH]; [done |]. cbn [flat_map concat].
  by rewrite !length_app, length_map, IH.
Qed.



Lemma movie_rows_width movies :
  Forall (fun r : csv_row => length r = 8%nat) (map movie_row movies).
Proof. apply Forall_forall. intros r (m & -> & _)%list_elem_of_fmap. done. Qed.

(** X6.  Every record the writer writes has the eight columns of the
    header: a file whose records had eight columns keeps that shape
    through any sequence of appends, and a file the writer creates has
    it from the start. *)
Theorem mirror_rows_have_eight_columns
    (batches : list (list CatalogItem)) (filename : string) (f : filesystem)
    (content' : list csv_row) :
  appends batches filename f !! filename = Some content' ->
  match f !! filename with
  | Some content => Forall (fun r : csv_row => length r = 8%nat) content
  | None => True
  end ->
  Forall (fun r : csv_row => length r = 8%nat) content'.
Proof.
  destruct (f !! filename) as [content|] eqn:E.
  - rewrite (appends_present _ _ _ _ E). intros [= <-] Hc.
    apply Forall_app. split; [done |].
    clear. induction batches as [|b bs IH]; [constructor |].
    cbn [flat_map]. apply Forall_app. split; [apply movie_rows_width | done].
  - destruct batches as [|b bs].
    + cbn. rewrite E. done.
    + cbn. rewrite (save_to_csv_absent _ _ _ E).
      fold (appends bs filename (<[filename:=header :: map movie_row b]> f)).
      erewrite appends_present by apply lookup_insert_eq.
      intros [= <-] _. constructor; [done |].
      apply Forall_app. split; [apply movie_rows_width |].
      clear. induction bs as [|b bs IH]; [constructor |].
      cbn [flat_map]. apply Forall_app. split; [apply movie_rows_width | done].
Qed.

(** ** Dates, further *)




(** X8.  Normalization is idempotent: the date stored for a string,
    written back in the form YYYY-MM-DD, is stored as the same date. *)
Theorem date_normalization_idempotent (date_str : string) (d : date) :
  parse_date_safe (Some date_str) = Some d ->
  parse_date_safe (Some (isoformat d)) = Some d.
Proof.
  intros [V _]%parse_date_safe_Some. apply parse_date_safe_Some.
  split; [done | apply isoformat_spelling].
Qed.

(** X9.  A string of the form YYYY-MM-DD that names no day of the
    calendar (the 30th of February, the 29th of February of a year that
    is not a leap year, a day of the year 0000) is stored as null. *)
Theorem impossible_date_is_null (y m d : Z) :
  0 <= y <= 9999 -> 1 <= m <= 12 -> 1 <= d <= 31 ->
  valid_date y m d = false ->
  parse_date_safe (Some (isoformat (Date y m d))) = None.
Proof.
  intros Hy Hm Hd V. unfold parse_date_safe, strptime_date, isoformat.
  cbn [year month day].
  destruct (format_regex_spelling y m d (pad2 m) (pad2 d) Hy Hm Hd) as [tl ->];
    [apply list_elem_of_here | apply list_elem_of_here |].
  by rewrite V.
Qed.

(** ** The upsert engine, row by row *)

Lemma genre_dict_lookup all k :
  genre_dict all !! k = None <-> k ∉ map genre_id all.
Proof.
  unfold genre_dict.
  assert (H : forall d : gmap Z Genre,
    foldl (fun d g => <[genre_id g := g]> d) d all !! k = None
    <-> d !! k = None /\ k ∉ map genre_id all).
  { induction all as [|g all IH]; intros d; cbn.
    - split; [intros ?; split; [done | by intros ?%elem_of_nil] | by intros [? _]].
    - rewrite IH. rewrite lookup_insert_None, not_elem_of_cons. intuition congruence. }
  rewrite H, lookup_empty. tauto.
Qed.

Lemma first_occurrences_elem seen batch m :
  m ∈ first_occurrences seen batch -> m ∈ batch /\ item_id m ∉ seen.
Proof.
  revert seen. induction batch as [|m' batch IH]; intros seen; cbn;
    [by intros ?%elem_of_nil |].
  case_bool_decide as Hs.
  - intros [? ?]%IH. split; [by apply list_elem_of_further | done].
  - intros [-> | [? Hn]%IH]%elem_of_cons.
    + split; [apply list_elem_of_here | done].
    + split; [by apply list_elem_of_further |].
      intros ?. apply Hn. by apply list_elem_of_further.
Qed.

Lemma staged_movies batch known cache :
  map fst (staged batch known cache).2 = map new_movie (first_occurrences known batch).
Proof.
  revert known cache. induction batch as [|m batch IH]; intros known cache;
    cbn [staged first_occurrences]; [done |].
  case_bool_decide; [apply IH |].
  destruct (link_genres (get_genre_ids m) cache) as [[c created] linked].
  specialize (IH (item_id m :: known) c).
  destruct (staged batch (item_id m :: known) c) as [gs ms]. cbn in *. by rewrite IH.
Qed.

Lemma staged_pairs batch known cache :
  cache_keyed cache ->
  flat_map assoc_rows (staged batch known cache).2
  = flat_map item_pairs (first_occurrences known batch).
Proof.
  revert known cache. induction batch as [|m batch IH]; intros known cache Hc;
    cbn [staged first_occurrences]; [done |].
  case_bool_decide; [by apply IH |].
  destruct (link_genres_keyed (get_genre_ids m) cache Hc) as [Hc' Hl].
  destruct (link_genres (get_genre_ids m) cache) as [[c created] linked].
  cbn [fst snd] in *. specialize (IH (item_id m :: known) c Hc').
  destruct (staged batch (item_id m :: known) c) as [gs ms]. cbn [snd flat_map] in *.
  rewrite IH. f_equal. unfold assoc_rows, item_pairs. cbn [fst snd new_movie id].
  rewrite <- Hl. by rewrite map_map.
Qed.

(** What the genre loop of one item creates and what it leaves in the
    cache. *)
Lemma link_genres_created gids cache :
  let '(c, created, linked) := link_genres gids cache in
  NoDup (map genre_id created)
  /\ (forall g, g ∈ created ->
        g = new_genre (genre_id g) /\ genre_id g ∈ gids /\ cache !! genre_id g = None)
  /\ (forall k, c !! k = None <-> cache !! k = None /\ k ∉ map genre_id created)
  /\ (forall gid, gid ∈ gids -> c !! gid <> None).
Proof.
  revert cache. induction gids as [|gid gids IH]; intros cache; cbn [link_genres].
  { split; [apply NoDup_nil_2 |]. split; [by intros g ?%elem_of_nil |].
    split; [| by intros g ?%elem_of_nil].
    intros k. split; [intros ?; split; [done | by intros ?%elem_of_nil] | by intros [? _]]. }
  destruct (cache !! gid) as [g0|] eqn:E.
  - specialize (IH cache). destruct (link_genres gids cache) as [[c created] linked].
    destruct IH as (I1 & I2 & I3 & I4). split; [done |]. split; [| split; [done |]].
    + intros g Hg. destruct (I2 g Hg) as (? & ? & ?).
      split; [done |]. split; [by apply list_elem_of_further | done].
    + intros k [-> | Hk]%elem_of_cons; [| by apply I4].
      rewrite I3. rewrite E. by intros [? _].
  - specialize (IH (<[gid := new_genre gid]> cache)).
    destruct (link_genres gids (<[gid := new_genre gid]> cache)) as [[c created] linked].
    destruct IH as (I1 & I2 & I3 & I4). cbn [map genre_id new_genre].
    split; [| split; [| split]].
    + apply NoDup_cons. split; [| done].
      intros (g & Hg & Hin)%list_elem_of_fmap.
      destruct (I2 g Hin) as (_ & _ & Hn). rewrite <- Hg in Hn.
      by rewrite lookup_insert_eq in Hn.
    + intros g [-> | Hg]%elem_of_cons.
      * split; [done |]. split; [apply list_elem_of_here | done].
      * destruct (I2 g Hg) as (? & ? & Hn). apply lookup_insert_None in Hn as [? ?].
        split; [done |]. split; [by apply list_elem_of_further | done].
    + intros k. rewrite I3, lookup_insert_None, not_elem_of_cons.
      cbn [genre_id new_genre]. intuition congruence.
    + intros k [-> | Hk]%elem_of_cons; [| by apply I4].
      rewrite I3, lookup_insert_eq. by intros [? _].
Qed.

Lemma staged_genres batch known cache :
  NoDup (map genre_id (staged batch known cache).1)
  /\ (forall g, g ∈ (staged batch known cache).1 ->
        g = new_genre (genre_id g) /\ cache !! genre_id g = None
        /\ exists m, m ∈ first_occurrences known batch /\ genre_id g ∈ get_genre_ids m)
  /\ (forall p, p ∈ flat_map item_pairs (first_occurrences known batch) ->
        cache !! p.2 <> None \/ p.2 ∈ map genre_id (staged batch known cache).1).
Proof.
  revert known cache. induction batch as [|m batch IH]; intros known cache;
    cbn [staged first_occurrences].
  { cbn. split; [apply NoDup_nil_2 |]. split; by intros ? ?%elem_of_nil. }
  case_bool_decide; [apply IH |].
  pose proof (link_genres_created (get_genre_ids m) cache) as L.
  destruct (link_genres (get_genre_ids m) cache) as [[c created] linked].
  destruct L as (L1 & L2 & L3 & L4).
  specialize (IH (item_id m :: known) c).
  destruct (staged batch (item_id m :: known) c) as [gs ms]. cbn [fst snd] in *.
  destruct IH as (I1 & I2 & I3). split; [| split].
  - rewrite map_app. apply NoDup_app. split; [done |]. split; [| done].
    intros k Hk (g & -> & Hg)%list_elem_of_fmap.
    destruct (I2 g Hg) as (_ & Hn & _). apply L3 in Hn as [_ Hn]. done.
  - intros g [Hg | Hg]%elem_of_app.
    + destruct (L2 g Hg) as (? & ? & ?). split; [done |]. split; [done |].
      exists m. split; [apply list_elem_of_here | done].
    + destruct (I2 g Hg) as (? & Hn & m' & ? & ?). apply L3 in Hn as [? _].
      split; [done |]. split; [done |].
      exists m'. split; [by apply list_elem_of_further | done].
  - intros p. cbn [flat_map]. rewrite map_app. intros [Hp | Hp]%elem_of_app.
    + unfold item_pairs in Hp. apply list_elem_of_fmap in Hp as (gid & -> & Hgid).
      cbn [snd]. apply L4 in Hgid.
      destruct (cache !! gid) eqn:E; [by left |]. right.
      apply elem_of_app. left.
      destruct (decide (gid ∈ map genre_id created)) as [? | Hn]; [done |].
      exfalso. apply Hgid, L3. done.
    + destruct (I3 p Hp) as [Hc | Hg].
      * destruct (cache !! p.2) eqn:E; [by left |]. right.
        apply elem_of_app. left.
        destruct (decide (p.2 ∈ map genre_id created)) as [? | Hn]; [done |].
        exfalso. apply Hc, L3. done.
      * right. apply elem_of_app. by right.
Qed.

(** What a successful call commits, table by table. *)
Lemma save_batch_to_db_tables batch db db' evs :
  save_batch_to_db batch db = (Ok tt, db', evs) ->
  movies (committed db') = movies (committed db) ++ map new_movie (new_items batch (committed db))
  /\ genres (committed db') = genres (committed db) ++ (staged_for batch (committed db)).1
  /\ movies_genres (committed db')
     = movies_genres (committed db) ++ flat_map item_pairs (new_items batch (committed db)).
Proof.
  intros (_ & _ & -> & _)%save_batch_to_db_Ok. cbn [committed extended movies genres movies_genres].
  unfold staged_for, new_items.
  rewrite staged_movies, staged_pairs by apply genre_dict_keyed. done.
Qed.

(** X10.  A successful call adds to [movies] one row for each
    identifier of the batch the store did not hold, and no other row.
    The row carries the identifier, the normalized release date and
    the vote count of the first item with that identifier.  The rows
    the store held are left where and as they were.  The added rows
    are compared up to their order, and nothing is said of their text
    and float columns. *)
Theorem stored_movies_are_first_occurrences
    (batch : list CatalogItem) (db db' : Database) (evs : list event) :
  save_batch_to_db batch db = (Ok tt, db', evs) ->
  exists added,
    movies (committed db') = movies (committed db) ++ added
    /\ map (fun r => (id r, release_date r, vote_count r)) added
       ≡ₚ map (fun m => (item_id m, parse_date_safe (item_release_date m),
                          item_vote_count m))
            (new_items batch (committed db)).
Proof.
  intros (H & _ & _)%save_batch_to_db_tables. eexists. split; [exact H |].
  by rewrite map_map.
Qed.


(** X12.  The genres a successful call adds have pairwise distinct
    identifiers that the store did not hold, each is named
    ["Genre "] followed by its identifier in decimal, and each is a
    genre of an item the call did not skip.  The genres the store held
    keep their rows and their names. *)
Theorem created_genres_are_synthesized
    (batch : list CatalogItem) (db db' : Database) (evs : list event) :
  save_batch_to_db batch db = (Ok tt, db', evs) ->
  exists created,
    genres (committed db') = genres (committed db) ++ created
    /\ NoDup (map genre_id created)
    /\ forall g, g ∈ created ->
         genre_name g = Some ("Genre " +:+ pretty (genre_id g))
         /\ (genre_id g ∉ map genre_id (genres (committed db)))
         /\ exists m, m ∈ new_items batch (committed db)
                      /\ genre_id g ∈ get_genre_ids m.
Proof.
  intros (_ & H & _)%save_batch_to_db_tables.
  exists (staged_for batch (committed db)).1. split; [done |].
  destruct (staged_genres batch (map id (movies (committed db)))
              (genre_dict (genres (committed db)))) as (G1 & G2 & _).
  split; [done |]. intros g Hg. destruct (G2 g Hg) as (Heq & Hn & Hm).
  split; [by rewrite Heq |]. split; [by apply genre_dict_lookup | done].
Qed.

(** X13.  A successful call keeps the store in good order: the primary
    keys of the three tables stay unique, and every association row
    still refers to a movie and a genre that are in their tables. *)
Theorem store_integrity_preserved
    (batch : list CatalogItem) (db db' : Database) (evs : list event) :
  save_batch_to_db batch db = (Ok tt, db', evs) ->
  (keys_unique (committed db) -> keys_unique (committed db'))
  /\ (referential_integrity (committed db) -> referential_integrity (committed db')).
Proof.
  intros H. pose proof (save_batch_to_db_tables _ _ _ _ H) as (Tm & Tg & Tp).
  pose proof H as (_ & Hc & _ & _)%save_batch_to_db_Ok. split.
  - intros (Nm & Ng & Np). unfold commit_tables in Hc.
    destruct (insert_many genre_id _ _ _) as [gt|] eqn:Eg; [| done].
    destruct (insert_many id _ _ _) as [mt|] eqn:Em; [| done].
    destruct (insert_many _ pair_types_ok _ _) as [pt|] eqn:Ep; [| done].
    injection Hc as Hc. rewrite <- Hc. cbn [movies genres movies_genres].
    split; [by eapply insert_many_NoDup | split; [by eapply insert_many_NoDup |]].
    apply insert_many_NoDup in Ep; rewrite ?map_id in *; done.
  - intros RI p. rewrite Tp, Tm, Tg, !map_app.
    destruct (staged_genres batch (map id (movies (committed db)))
                (genre_dict (genres (committed db)))) as (_ & _ & G3).
    fold (new_items batch (committed db)) in G3.
    fold (staged_for batch (committed db)) in G3.
    intros [Hp | Hp]%elem_of_app.
    + destruct (RI p Hp). split; apply elem_of_app; by left.
    + split.
      * apply elem_of_app. right.
        apply list_elem_of_In, in_flat_map in Hp as (m & Hm%list_elem_of_In & Hp%list_elem_of_In).
        unfold item_pairs in Hp. apply list_elem_of_fmap in Hp as (gid & -> & _).
        cbn [fst]. rewrite map_map. apply list_elem_of_fmap. by exists m.
      * apply elem_of_app. destruct (G3 p Hp) as [Hc' | Hg]; [left | by right].
        destruct (decide (p.2 ∈ map genre_id (genres (committed db)))) as [? | Hn];
          [done |].
        exfalso. by apply Hc', genre_dict_lookup.
Qed.

(** ** The driver, for every catalog *)

Lemma save_batch_to_db_requests batch d :
  requested (save_batch_to_db batch d).2 = [].
Proof.
  destruct (save_batch_to_db_total batch d) as [[e ->] | [_ ->]]; done.
Qed.

Lemma while_body_requested srv max_pages size page w :
  requested (while_body srv max_pages size page w).2
  = requested (fetch_movies_batch srv page size).2.
Proof.
  unfold while_body. destruct (fetch_movies_batch srv page size) as [[|m b] evs];
    [done |].
  pose proof (save_batch_to_db_requests (m :: b) (db w)) as R. revert R.
  destruct (save_batch_to_db (m :: b) (db w)) as [[[u|e] db'] evs']; cbn [snd];
    intros R; cbn [requested omap]; fold (requested (evs ++ evs'));
    by rewrite requested_app, R, app_nil_r.
Qed.

(** The cursor stays on the grid 1, 1 + size, 1 + 2 size, ...; when the
    ceiling is a multiple of the batch size no batch reaches past it. *)
Lemma while_pages_requested srv max_pages size j fuel :
  max_pages = j * size ->
  forall i page w r w' evs,
    0 <= i -> page = 1 + i * size ->
    while_pages fuel srv max_pages size page w = Some (r, w', evs) ->
    forall p, p ∈ requested evs -> 1 <= p <= max_pages.
Proof.
  intros Hmax. induction fuel as [|fuel IH]; intros i page w r w' evs Hi Hpage; [done |].
  destruct (Z.le_gt_cases page max_pages) as [Hp | Hp].
  2:{ cbn [while_pages]. rewrite (proj2 (Z.leb_gt _ _) Hp). cbn.
      intros [= <- <- <-] p Hin. by apply elem_of_nil in Hin. }
  rewrite while_pages_step by done.
  pose proof (while_body_requested srv max_pages size page w) as R.
  pose proof (fetch_requests_in_range srv page size) as Hrange.
  assert (Hround : forall p, p ∈ requested (while_body srv max_pages size page w).2 ->
            1 <= p <= max_pages).
  { intros p Hin. rewrite R in Hin. apply Hrange in Hin.
    assert (0 < size) by lia. assert (i < j) by nia.
    assert ((i + 1) * size <= j * size) by (apply Z.mul_le_mono_nonneg_r; lia).
    nia. }
  destruct (while_body srv max_pages size page w) as [[[page'| |e] w1] evs1] eqn:E;
    cbn [snd] in Hround.
  - apply while_body_continue in E as [-> Hne%fetch_nonempty_size].
    destruct (while_pages fuel srv max_pages size (page + size) w1)
      as [[[r2 w2] evs2]|] eqn:E2; [| done].
    intros [= <- <- <-] p. rewrite requested_app.
    intros [Hin | Hin]%elem_of_app; [by apply Hround |].
    apply (IH (i + 1) (page + size) w1 r2 w2 evs2); [lia | lia | done | done].
  - intros [= <- <- <-]. exact Hround.
  - intros [= <- <- <-]. exact Hround.
Qed.

Lemma requested_print msg evs : requested (Print msg :: evs) = requested evs.
Proof. reflexivity. Qed.

(** X15.  [main] terminates, whatever the catalog answers and whatever
    the mirror and the store hold: every round that goes on moves the
    cursor forward by the batch size, so the loop ends, by the ceiling
    at the latest. *)
Theorem main_terminates (srv : remote) (w : World) :
  exists r w' evs, main srv w = Some (r, w', evs).
Proof.
  destruct (pipeline_total srv MAX_PAGES PAGES_PER_BATCH w) as [[[r w'] evs] H].
  by exists r, w', evs.
Qed.

(** X16.  [main] requests no page outside 1 .. 100, whatever the
    catalog answers and however the run ends. *)
Theorem main_requests_within_ceiling
    (srv : remote) (w w' : World) (r : result unit) (evs : list event) :
  main srv w = Some (r, w', evs) ->
  forall p, p ∈ requested evs -> 1 <= p <= MAX_PAGES.
Proof.
  unfold main, pipeline.
  destruct (while_pages _ srv MAX_PAGES PAGES_PER_BATCH 1 w)
    as [[[[u|e] w1] evs1]|] eqn:E; [| | done].
  - intros [= <- <- <-] p. cbn [app]. rewrite !requested_print, requested_app.
    cbn [requested omap]. rewrite app_nil_r. intros Hin.
    by apply (while_pages_requested srv MAX_PAGES PAGES_PER_BATCH 20
                (S (Z.to_nat MAX_PAGES)) eq_refl 0 1 w (Ok u) w1 evs1).
  - intros [= <- <- <-] p. cbn [app]. rewrite !requested_print, requested_app.
    cbn [requested omap]. rewrite app_nil_r. intros Hin.
    by apply (while_pages_requested srv MAX_PAGES PAGES_PER_BATCH 20
                (S (Z.to_nat MAX_PAGES)) eq_refl 0 1 w (Raise e) w1 evs1).
Qed.

Lemma while_retries_skipped srv page retries attempt movies :
  first_answer srv page retries attempt = Skipped ->
  requested (while_retries srv page retries attempt movies).2 = replicate retries page.
Proof.
  revert attempt. induction retries as [|n IH]; intros attempt;
    cbn [while_retries first_answer]; [done |].
  destruct (try_results (srv page attempt)) as [[|r rs]|e]; [done | done |].
  intros H%IH. destruct (while_retries srv page n (S attempt) movies) as [x evs].
  cbn [snd] in *. by rewrite requested_app, H.
Qed.

Lemma for_pages_all_skipped srv pages movies :
  (forall p, p ∈ pages -> outcome_of srv p = Skipped) ->
  (for_pages srv pages movies).1 = movies
  /\ requested (for_pages srv pages movies).2 = flat_map (replicate 3) pages.
Proof.
  induction pages as [|q pages IH]; intros H; cbn [for_pages flat_map]; [done |].
  assert (Hq : outcome_of srv q = Skipped) by apply H, list_elem_of_here.
  pose proof (while_retries_exit srv q 3 0 movies) as E.
  pose proof (while_retries_skipped srv q 3 0 movies Hq) as R.
  fold (outcome_of srv q) in E. rewrite Hq in E. revert E R.
  destruct (while_retries srv q 3 0 movies) as [x evs]. cbn [fst snd exit_of].
  intros -> R.
  destruct IH as [I1 I2]; [intros p Hp; by apply H, list_elem_of_further |].
  destruct (for_pages srv pages movies) as [r evs']. cbn [fst snd] in *.
  split; [done |]. by rewrite requested_app, R, I2.
Qed.

(** X17.  An outage reads as exhaustion.  When every attempt for each
    page of the first batch fails, [main] makes its fifteen requests,
    three per page, takes the empty batch for the end of the catalog
    and ends as completed: it raises nothing, writes nothing to the
    mirror or the store, and tries no further batch. *)
Theorem outage_ends_run_as_completed (srv : remote) (w : World) :
  (forall p, 1 <= p <= 5 -> outcome_of srv p = Skipped) ->
  exists evs,
    main srv w = Some (Ok tt, w, evs)
    /\ requested evs = [1; 1; 1; 2; 2; 2; 3; 3; 3; 4; 4; 4; 5; 5; 5]
    /\ last evs = Some (Print Completed).
Proof.
  intros H.
  destruct (for_pages_all_skipped srv (range 1 (1 + 5)) []) as [I1 I2].
  { intros p Hp%elem_of_range. apply H. lia. }
  unfold main, pipeline, MAX_PAGES, PAGES_PER_BATCH.
  rewrite while_pages_step by lia. unfold while_body, fetch_movies_batch.
  destruct (for_pages srv (range 1 (1 + 5)) []) as [b evs0]. cbn [fst snd] in *.
  subst b. eexists. split; [reflexivity |]. split.
  - cbn [app]. rewrite !requested_print, requested_app.
    cbn [requested omap]. by rewrite I2, app_nil_r.
  - by rewrite app_assoc, last_snoc.
Qed.

(** X18.  With a batch size that is not positive the pipeline requests
    nothing and leaves the mirror and the store as they were; it ends
    as completed. *)
Theorem pipeline_with_no_pages_per_batch
    (srv : remote) (max_pages size : Z) (w : World) :
  size <= 0 ->
  exists evs,
    pipeline srv max_pages size w = Some (Ok tt, w, evs)
    /\ requested evs = [].
Proof.
  intros Hs. unfold pipeline. cbn [while_pages].
  destruct (1 <=? max_pages); cbn [negb]; [| by eexists].
  unfold while_body, fetch_movies_batch, range. rewrite seqZ_nil by lia.
  cbn. by eexists.
Qed.

Lemma grown_refl w : grown w w.
Proof.
  repeat split; try done. intros name content H. by exists content.
Qed.

Lemma grown_trans w1 w2 w3 : grown w1 w2 -> grown w2 w3 -> grown w1 w3.
Proof.
  intros (A1 & A2 & A3 & A4) (B1 & B2 & B3 & B4).
  repeat split; try (by etrans).
  intros name content H. destruct (A4 _ _ H) as (c2 & H2 & P2).
  destruct (B4 _ _ H2) as (c3 & H3 & P3). exists c3. split; [done | by etrans].
Qed.

Lemma while_body_grown srv max_pages size page w :
  grown w (while_body srv max_pages size page w).1.2.
Proof.
  unfold while_body. destruct (fetch_movies_batch srv page size) as [[|m b] evs];
    [apply grown_refl |].
  assert (Hfs : forall name content, fs w !! name = Some content ->
            exists content',
              save_to_csv (m :: b) default_filename (fs w) !! name = Some content'
              /\ content `prefix_of` content').
  { intros name content H. destruct (decide (name = default_filename)) as [-> | Hne].
    - rewrite (save_to_csv_present _ _ _ _ H). eexists.
      split; [apply lookup_insert_eq | by apply prefix_app_r].
    - exists content. split; [| done]. unfold save_to_csv. cbv zeta.
      rewrite <- H. apply lookup_insert_ne. congruence. }
  destruct (save_batch_to_db_total (m :: b) (db w)) as [[e ->] | [_ ->]];
    cbn [fst snd]; unfold grown; cbn [db fs committed extended movies genres movies_genres].
  - repeat split; done.
  - repeat split; try (by apply prefix_app_r). done.
Qed.

Lemma while_pages_grown srv max_pages size fuel page w r w' evs :
  while_pages fuel srv max_pages size page w = Some (r, w', evs) -> grown w w'.
Proof.
  revert page w r w' evs. induction fuel as [|fuel IH]; intros page w r w' evs; [done |].
  cbn [while_pages]. destruct (negb (page <=? max_pages)).
  { intros [= <- <- <-]. apply grown_refl. }
  pose proof (while_body_grown srv max_pages size page w) as G. revert G.
  destruct (while_body srv max_pages size page w) as [[[page'| |e] w1] evs1];
    cbn [fst snd]; intros G.
  - destruct (while_pages fuel srv max_pages size page' w1)
      as [[[r2 w2] evs2]|] eqn:E2; [| done].
    intros [= <- <- <-]. eapply grown_trans; [done | by eapply IH].
  - by intros [= <- <- <-].
  - by intros [= <- <- <-].
Qed.

(** X19.  A run only adds.  However [main] ends, the rows the three
    tables held and the records each file held are still there, in
    place, at the head of the table or file: the run neither deletes
    nor rewrites a row, a record or a file. *)
Theorem run_only_appends
    (srv : remote) (w w' : World) (r : result unit) (evs : list event) :
  main srv w = Some (r, w', evs) -> grown w w'.
Proof.
  unfold main, pipeline.
  destruct (while_pages _ srv MAX_PAGES PAGES_PER_BATCH 1 w)
    as [[[[u|e] w1] evs1]|] eqn:E; [| | done];
    intros [= <- <- <-]; by eapply while_pages_grown.
Qed.


(** ** The further statements at sample inputs *)

Example fetch_dead_catalog :
  fetch_movies_batch dead_catalog 1 2 =
  ([],
   [Print (Fetching 1); Get 1; Print (Retrying 1 2 RequestException); Sleep 2000;
    Print (Fetching 1); Get 1; Print (Retrying 1 1 RequestException); Sleep 2000;
    Print (Fetching 1); Get 1; Print (Retrying 1 0 RequestException); Sleep 2000;
    Print (Skipping 1);
    Print (Fetching 2); Get 2; Print (Retrying 2 2 RequestException); Sleep 2000;
    Print (Fetching 2); Get 2; Print (Retrying 2 1 RequestException); Sleep 2000;
    Print (Fetching 2); Get 2; Print (Retrying 2 0 RequestException); Sleep 2000;
    Print (Skipping 2)]).
Proof. reflexivity. Qed.

Example save_sample_batch :
  (fun d => (map id (movies (committed d)), map genre_id (genres (committed d)),
             movies_genres (committed d)))
    (save_batch_to_db sample_batch empty_db).1.2
  = ([7; 8], [1; 2; 3], [(7, 1); (7, 2); (8, 2); (8, 3)]).
Proof. vm_compute. reflexivity. Qed.

Example save_received_null_genre_ids :
  save_to_csv_received
    [Typed (sample_item 7 (Some "1995-12-15") [1; 2]);
     NullGenreIds (sample_item 8 None []);
     Typed (sample_item 9 None [3])]
    default_filename ∅
  = (Raise TypeError,
     {[ default_filename :=
          [header; movie_row (sample_item 7 (Some "1995-12-15") [1; 2])] ]}).
Proof. reflexivity. Qed.


(** X6 on one append to a file that does not exist. *)
Lemma mirror_rows_have_eight_columns_witness :
  Forall (fun r : csv_row => length r = 8%nat) (header :: map movie_row sample_batch).
Proof.
  apply (mirror_rows_have_eight_columns [sample_batch] default_filename ∅).
  - vm_compute. reflexivity.
  - vm_compute. exact I.
Defined.


(** X8 on the string 2020-1-5. *)
Lemma date_normalization_idempotent_witness :
  parse_date_safe (Some (isoformat (Date 2020 1 5))) = Some (Date 2020 1 5).
Proof.
  apply (date_normalization_idempotent "2020-1-5" (Date 2020 1 5)). reflexivity.
Defined.

(** X9 on the 30th of February 2021. *)
Lemma impossible_date_is_null_witness :
  valid_date 2021 2 30 = false
  /\ parse_date_safe (Some (isoformat (Date 2021 2 30))) = None.
Proof.
  split; [reflexivity |].
  apply (impossible_date_is_null 2021 2 30); [lia | lia | lia | reflexivity].
Defined.

(** X10 on the sample batch and the empty store. *)
Lemma stored_movies_are_first_occurrences_witness :
  let r := save_batch_to_db sample_batch empty_db in
  r = (Ok tt, r.1.2, r.2)
  /\ exists added,
       movies (committed r.1.2) = movies (committed empty_db) ++ added
       /\ map (fun r => (id r, release_date r, vote_count r)) added
          ≡ₚ map (fun m => (item_id m, parse_date_safe (item_release_date m),
                             item_vote_count m))
               (new_items sample_batch (committed empty_db)).
Proof.
  intros r.
  assert (H : r = (Ok tt, r.1.2, r.2)) by (vm_compute; reflexivity).
  split; [exact H |].
  apply (stored_movies_are_first_occurrences sample_batch empty_db r.1.2 r.2 H).
Defined.


(** X12 on the sample batch and the empty store. *)
Lemma created_genres_are_synthesized_witness :
  let r := save_batch_to_db sample_batch empty_db in
  r = (Ok tt, r.1.2, r.2)
  /\ exists created,
       genres (committed r.1.2) = genres (committed empty_db) ++ created
       /\ NoDup (map genre_id created)
       /\ forall g, g ∈ created ->
            genre_name g = Some ("Genre " +:+ pretty (genre_id g))
            /\ (genre_id g ∉ map genre_id (genres (committed empty_db)))
            /\ exists m, m ∈ new_items sample_batch (committed empty_db)
                         /\ genre_id g ∈ get_genre_ids m.
Proof.
  intros r.
  assert (H : r = (Ok tt, r.1.2, r.2)) by (vm_compute; reflexivity).
  split; [exact H |].
  apply (created_genres_are_synthesized sample_batch empty_db r.1.2 r.2 H).
Defined.

(** X13 on the sample batch and the empty store. *)
Lemma store_integrity_preserved_witness :
  let r := save_batch_to_db sample_batch empty_db in
  r = (Ok tt, r.1.2, r.2)
  /\ keys_unique (committed r.1.2)
  /\ referential_integrity (committed r.1.2).
Proof.
  intros r.
  assert (H : r = (Ok tt, r.1.2, r.2)) by (vm_compute; reflexivity).
  split; [exact H |].
  destruct (store_integrity_preserved sample_batch empty_db r.1.2 r.2 H) as [K R].
  split.
  - apply K. repeat split; apply NoDup_nil_2.
  - apply R. intros p Hp. cbn in Hp. apply elem_of_nil in Hp. destruct Hp.
Defined.

(** X16 on the one-page catalog and the empty world. *)
Lemma main_requests_within_ceiling_witness :
  match main one_page_catalog empty_world with
  | Some (_, _, evs) => forall p, p ∈ requested evs -> 1 <= p <= MAX_PAGES
  | None => False
  end.
Proof.
  destruct (main one_page_catalog empty_world) as [[[r w'] evs]|] eqn:E.
  - exact (main_requests_within_ceiling _ _ _ _ _ E).
  - vm_compute in E. discriminate.
Defined.

(** X19 on the one-page catalog and the empty world. *)
Lemma run_only_appends_witness :
  match main one_page_catalog empty_world with
  | Some (_, w', _) => grown empty_world w'
  | None => False
  end.
Proof.
  destruct (main one_page_catalog empty_world) as [[[r w'] evs]|] eqn:E.
  - exact (run_only_appends _ _ _ _ _ E).
  - vm_compute in E. discriminate.
Defined.

(** X17 on the catalog that cannot be reached. *)
Lemma outage_ends_run_as_completed_witness :
  exists evs,
    main dead_catalog empty_world = Some (Ok tt, empty_world, evs)
    /\ requested evs = [1; 1; 1; 2; 2; 2; 3; 3; 3; 4; 4; 4; 5; 5; 5]
    /\ last evs = Some (Print Completed).
Proof.
  apply (outage_ends_run_as_completed dead_catalog empty_world).
  intros p _. reflexivity.
Defined.

(** X18 with batch size 0. *)
Lemma pipeline_with_no_pages_per_batch_witness :
  exists evs,
    pipeline one_page_catalog 100 0 empty_world = Some (Ok tt, empty_world, evs)
    /\ requested evs = [].
Proof.
  apply (pipeline_with_no_pages_per_batch one_page_catalog 100 0 empty_world). lia.
Defined.

